(** * minikube kubectl: the version-matched kubectl dispatcher

    A shallow embedding of [cmd/minikube/cmd/kubectl.go]: the completion
    proxy ([ValidArgsFunction]), the dispatcher ([Run]), the path resolvers
    ([kubectlPath], [kubeconfigPath]) and [KubectlCommand].

    Go strings are byte strings ([string]); [int] is a 64-bit integer kept
    as a [Z] inside its range; a call that returns [(T, error)] returns a
    [result T]; the calls into other packages that touch the outside world
    are the fields of a [World] record, and what the command does to the
    outside world is the list of [Event]s it leaves behind together with
    the way it ends ([Done] or [Exit rc]). *)

From Stdlib Require Import String Ascii List ZArith NArith Bool Lia.
Import ListNotations.
Open Scope string_scope.
Open Scope Z_scope.

Set Implicit Arguments.

(** ** Go values *)

(** The [error] interface, kept as the text [Error()] returns: that text is
    all the command ever does with an error ([%v]). *)
Definition error := string.

Inductive result (A : Type) : Type :=
| Ok (a : A)
| Err (e : error).
Arguments Ok {A} a.
Arguments Err {A} e.

(** A Go slice of strings: [nil], or a slice with elements (possibly none). *)
Definition slice := option (list string).

(** A buffer that is filled byte by byte is kept last byte first;
    [rev_string buf tail] is its text, followed by [tail]. *)
Fixpoint rev_string (buf : list ascii) (tail : string) : string :=
  match buf with
  | [] => tail
  | c :: buf' => rev_string buf' (String c tail)
  end.

(** Every byte of the string passes the test. *)
Fixpoint bytes_all (P : ascii -> bool) (s : string) : bool :=
  match s with
  | EmptyString => true
  | String c s' => P c && bytes_all P s'
  end.

(** Two lists of strings are the same. *)
Fixpoint strings_eqb (l1 l2 : list string) : bool :=
  match l1, l2 with
  | [], [] => true
  | s1 :: l1', s2 :: l2' => String.eqb s1 s2 && strings_eqb l1' l2'
  | _, _ => false
  end.

(** ** The pieces of the Go standard library the file calls *)

Module strings.

(** [strings.HasPrefix(s, prefix)]. *)
Fixpoint HasPrefix (s prefix : string) {struct prefix} : bool :=
  match prefix, s with
  | EmptyString, _ => true
  | String _ _, EmptyString => false
  | String p prefix', String c s' => Ascii.eqb c p && HasPrefix s' prefix'
  end.

(** [s[n:]]. *)
Fixpoint drop (n : nat) (s : string) : string :=
  match n, s with
  | O, _ => s
  | S n', String _ s' => drop n' s'
  | S _, EmptyString => EmptyString
  end.

(** [strings.TrimPrefix(s, prefix)]: [s] without the leading [prefix],
    and [s] itself when it does not start with [prefix]. *)
Definition TrimPrefix (s prefix : string) : string :=
  if HasPrefix s prefix then drop (String.length prefix) s else s.

(** [strings.Split(s, sep)] for a separator of one byte: the pieces of
    [s] between the occurrences of [sep]; never an empty list. *)
Fixpoint Split (s : string) (sep : ascii) : list string :=
  match s with
  | EmptyString => [EmptyString]
  | String c s' =>
      if Ascii.eqb c sep then EmptyString :: Split s' sep
      else match Split s' sep with
           | piece :: pieces => String c piece :: pieces
           | [] => [String c EmptyString]
           end
  end.

(** [strings.Join(elems, sep)]. *)
Definition Join (elems : list string) (sep : string) : string :=
  String.concat sep elems.

End strings.

Module strconv.

(** [strconv.IntSize] on the 64-bit hosts. *)
Definition IntSize : Z := 64.
Definition MinInt : Z := - 2 ^ (IntSize - 1).
Definition MaxInt : Z := 2 ^ (IntSize - 1) - 1.

Definition ErrSyntax : error := "invalid syntax".
Definition ErrRange : error := "value out of range".

(** [ch -= '0'; if ch > 9 { syntax error }] on one byte. *)
Definition digit_of (c : ascii) : option Z :=
  let n := Z.of_nat (nat_of_ascii c) in
  if (48 <=? n) && (n <=? 57) then Some (n - 48) else None.

(** The digit loop [n = n*10 + int(ch)], over the whole string. *)
Fixpoint digits (s : string) (n : Z) : option Z :=
  match s with
  | EmptyString => Some n
  | String ch s' =>
      match digit_of ch with
      | Some d => digits s' (n * 10 + d)
      | None => None
      end
  end.

(** [strconv.Atoi(s)]: an optional sign, then one decimal digit or more
    and nothing else; a value outside [int] is a range error. *)
Definition Atoi (s : string) : result Z :=
  let in_range (v : Z) : result Z :=
    if (MinInt <=? v) && (v <=? MaxInt) then Ok v else Err ErrRange in
  match s with
  | EmptyString => Err ErrSyntax
  | String c s' =>
      if Ascii.eqb c "-" then
        match s' with
        | EmptyString => Err ErrSyntax
        | _ => match digits s' 0 with
               | Some v => in_range (- v)
               | None => Err ErrSyntax
               end
        end
      else if Ascii.eqb c "+" then
        match s' with
        | EmptyString => Err ErrSyntax
        | _ => match digits s' 0 with
               | Some v => in_range v
               | None => Err ErrSyntax
               end
        end
      else match digits s 0 with
           | Some v => in_range v
           | None => Err ErrSyntax
           end
  end.

(** The byte of a decimal digit, ['0' + d]. *)
Definition digit_char (d : Z) : ascii := ascii_of_nat (Z.to_nat (48 + d)).

(** The loop of [formatBits] in base 10, least significant digit first:
    [for u >= 10 { a[i] = u%10 + '0'; u /= 10 }; a[i] = '0' + u]. *)
Fixpoint format_loop (fuel : nat) (u : Z) (a : string) : string :=
  match fuel with
  | O => a
  | S fuel' =>
      if u <? 10 then String (digit_char u) a
      else format_loop fuel' (u / 10) (String (digit_char (u mod 10)) a)
  end.

(** [strconv.Itoa(i)]: the decimal text of [i], with a leading [-] for a
    negative value.  A 64-bit value has at most 20 digits. *)
Definition Itoa (i : Z) : string :=
  if i <? 0 then String "-" (format_loop 20 (- i) EmptyString)
  else format_loop 20 i EmptyString.

End strconv.

(** The string starts with a decimal digit. *)
Definition starts_with_digit (s : string) : Prop :=
  exists d rest, 0 <= d < 10 /\ s = String (strconv.digit_char d) rest.

Module bufio.

(** [bufio.MaxScanTokenSize]: the most bytes a [Scanner] buffers while it
    looks for the end of a token. *)
Definition MaxScanTokenSize : N := 65536.

Definition ErrTooLong : error := "bufio.Scanner: token too long".

Definition newline : ascii := ascii_of_nat 10.
Definition carriage_return : ascii := ascii_of_nat 13.

(** [dropCR]: one trailing carriage return is not part of the line. *)
Fixpoint dropCR (line : string) : string :=
  match line with
  | EmptyString => EmptyString
  | String c EmptyString =>
      if Ascii.eqb c carriage_return then EmptyString else line
  | String c rest => String c (dropCR rest)
  end.

(** The line held in [cur], the bytes gathered since the last newline,
    last byte first. *)
Definition line_of (cur : list ascii) : string :=
  dropCR (rev_string cur EmptyString).

(** The lines of a text, as [ScanLines] cuts them: every newline ends a
    line, and what follows the last newline is a line when it is not
    empty. *)
Fixpoint lines_from (data : string) (cur : list ascii) : list string :=
  match data with
  | EmptyString =>
      match cur with
      | [] => []
      | _ => [line_of cur]
      end
  | String c rest =>
      if Ascii.eqb c newline then line_of cur :: lines_from rest []
      else lines_from rest (c :: cur)
  end.

Definition lines (data : string) : list string := lines_from data [].

(** A [Scanner] with the [ScanLines] split function, read to its end
    over an in-memory buffer: the tokens of the [Scan()] calls that
    returned true, and [Err()] afterwards.  [Scan] stops with
    [ErrTooLong] when [MaxScanTokenSize] bytes are buffered and no
    newline is among them; reaching the end of the data is not an
    error.  [n] is the number of bytes in [cur]. *)
Fixpoint scan_from (data : string) (cur : list ascii) (n : N)
  : list string * option error :=
  match data with
  | EmptyString =>
      match cur with
      | [] => ([], None)
      | _ => ([line_of cur], None)
      end
  | String c rest =>
      if Ascii.eqb c newline then
        let (tokens, err) := scan_from rest [] 0%N in
        (line_of cur :: tokens, err)
      else if (MaxScanTokenSize <=? n + 1)%N then ([], Some ErrTooLong)
      else scan_from rest (c :: cur) (n + 1)%N
  end.

Definition Scanner (data : string) : list string * option error :=
  scan_from data [] 0%N.

End bufio.

(** ** cobra *)

Module cobra.

(** [cobra.ShellCompRequestCmd], the hidden command a completion script
    calls. *)
Definition ShellCompRequestCmd : string := "__complete".

(** [type ShellCompDirective int]; [ShellCompDirectiveError] is the
    first bit. *)
Definition ShellCompDirective := Z.
Definition ShellCompDirectiveError : ShellCompDirective := 1.

End cobra.

(** ** Paths *)

Module path.

Definition slash : ascii := "/".
Definition dot : ascii := ".".

(** [r == n || path[r] == '/'], on what is left of the path. *)
Definition at_boundary (p : string) : bool :=
  match p with
  | EmptyString => true
  | String c _ => Ascii.eqb c slash
  end.

(** The bytes up to the next slash, last byte first, and what follows. *)
Fixpoint element (p : string) (acc : list ascii) : list ascii * string :=
  match p with
  | EmptyString => (acc, EmptyString)
  | String c rest =>
      if Ascii.eqb c slash then (acc, p) else element rest (c :: acc)
  end.

(** [out.w--; for out.w > dotdot && out.index(out.w) != '/' { out.w-- }]:
    [dropped] is the byte at [out.w], the one dropped last. *)
Fixpoint backtrack_loop (dropped : ascii) (out : list ascii) (dotdot : nat)
  : list ascii :=
  match out with
  | [] => []
  | c :: out' =>
      if (dotdot <? length out)%nat && negb (Ascii.eqb dropped slash)
      then backtrack_loop c out' dotdot
      else out
  end.

Definition backtrack (out : list ascii) (dotdot : nat) : list ascii :=
  match out with
  | [] => []
  | c :: out' => backtrack_loop c out' dotdot
  end.

(** [path[r+1] == '.' && (r+2 == n || path[r+2] == '/')], on
    [path[r+1:]]. *)
Definition HasDotBoundary (p : string) : bool :=
  match p with
  | String c rest => Ascii.eqb c dot && at_boundary rest
  | EmptyString => false
  end.

(** The loop of [path.Clean]; [p] is [path[r:]], [out] the bytes written
    so far, last byte first.  Every turn reads one byte or more, so the
    length of the path is fuel enough. *)
Fixpoint clean_loop (fuel : nat) (rooted : bool) (p : string)
    (out : list ascii) (dotdot : nat) {struct fuel} : list ascii :=
  match fuel with
  | O => out
  | S fuel' =>
      match p with
      | EmptyString => out
      | String c rest =>
          if Ascii.eqb c slash then
            (* empty path element *)
            clean_loop fuel' rooted rest out dotdot
          else if Ascii.eqb c dot && at_boundary rest then
            (* . element *)
            clean_loop fuel' rooted rest out dotdot
          else if Ascii.eqb c dot && HasDotBoundary rest then
            (* .. element: remove to last / *)
            let rest' := strings.drop 1 rest in
            if (dotdot <? length out)%nat then
              clean_loop fuel' rooted rest' (backtrack out dotdot) dotdot
            else if negb rooted then
              let out1 := if (0 <? length out)%nat then slash :: out else out in
              let out2 := dot :: dot :: out1 in
              clean_loop fuel' rooted rest' out2 (length out2)
            else clean_loop fuel' rooted rest' out dotdot
          else
            (* real path element: add slash if needed, copy element *)
            let out1 :=
              if (rooted && negb (length out =? 1)%nat)
                 || (negb rooted && negb (length out =? 0)%nat)
              then slash :: out else out in
            let (out2, rest') := element p out1 in
            clean_loop fuel' rooted rest' out2 dotdot
      end
  end.

(** [path.Clean(path)]: the shortest path name equivalent to [path]. *)
Definition Clean (p : string) : string :=
  match p with
  | EmptyString => "."
  | String c rest =>
      let out :=
        if Ascii.eqb c slash
        then clean_loop (S (String.length p)) true rest [slash] 1
        else clean_loop (S (String.length p)) false p [] 0 in
      match out with
      | [] => "."
      | _ => rev_string out EmptyString
      end
  end.

(** The loop of [path.Join] that fills [buf]: an empty element is
    skipped while [buf] is empty, and a slash goes between the rest. *)
Fixpoint join_loop (elem : list string) (buf : string) : string :=
  match elem with
  | [] => buf
  | e :: elem' =>
      match buf, e with
      | EmptyString, EmptyString => join_loop elem' buf
      | EmptyString, _ => join_loop elem' e
      | _, _ => join_loop elem' (buf ++ String slash e)
      end
  end.

(** [path.Join(elem...)]: the elements joined with slashes and cleaned;
    the empty string when every element is empty. *)
Definition Join (elem : list string) : string :=
  if forallb (fun e => (String.length e =? 0)%nat) elem then EmptyString
  else Clean (join_loop elem EmptyString).

(** A path element that [Clean] keeps as it is: not empty, not [.], not
    [..], and without a slash. *)
Definition plain_element (e : string) : bool :=
  negb (String.eqb e "") && negb (String.eqb e ".")
  && negb (String.eqb e "..")
  && bytes_all (fun c => negb (Ascii.eqb c slash)) e.

(** The rooted path of the given elements: [/e1/e2/.../en]. *)
Fixpoint rooted_path (elems : list string) : string :=
  match elems with
  | [] => EmptyString
  | e :: elems' => String slash (e ++ rooted_path elems')
  end.

(** The buffer [buf] after the bytes of [e] are appended to it. *)
Fixpoint push (e : string) (buf : list ascii) : list ascii :=
  match e with
  | EmptyString => buf
  | String c e' => push e' (c :: buf)
  end.

End path.

Module filepath.

(** The path without its trailing slashes. *)
Fixpoint strip_trailing (p : string) : string :=
  match p with
  | EmptyString => EmptyString
  | String c rest =>
      match strip_trailing rest with
      | EmptyString =>
          if Ascii.eqb c path.slash then EmptyString
          else String c EmptyString
      | rest' => String c rest'
      end
  end.

(** What follows the last slash of [p]; [cur] is what follows the last
    slash seen so far. *)
Fixpoint last_element (p : string) (cur : list ascii) : string :=
  match p with
  | EmptyString => rev_string cur EmptyString
  | String c rest =>
      if Ascii.eqb c path.slash then last_element rest []
      else last_element rest (c :: cur)
  end.

(** [filepath.Base(path)] where the separator is the slash. *)
Definition Base (p : string) : string :=
  match p with
  | EmptyString => "."
  | _ =>
      match last_element (strip_trailing p) [] with
      | EmptyString => "/"
      | b => b
      end
  end.

End filepath.

(** ** Processes *)

Module syscall.

(** [syscall.WaitStatus] on Linux: a 32-bit word whose low seven bits
    are zero when the process exited by itself, and whose next byte is
    then its exit status. *)
Definition WaitStatus := Z.

Definition Exited (w : WaitStatus) : bool := Z.land w 127 =? 0.

Definition ExitStatus (w : WaitStatus) : Z :=
  if negb (Exited w) then -1 else Z.land (Z.shiftr w 8) 255.

End syscall.

Module os.

(** The three standard streams of the process. *)
Inductive File : Type := Stdin | Stdout | Stderr.

End os.

Module exec.

(** [exec.Cmd], the fields the command sets; a stream left [nil] is the
    null device. *)
Record Cmd : Type := {
  Path : string;
  Args : list string;
  LookErr : option error;
  Stdin : option os.File;
  Stdout : option os.File;
  Stderr : option os.File
}.

(** What [c.Run()] can return besides [nil]: an [*exec.ExitError], which
    carries the wait status of the child, or any other error. *)
Inductive RunError : Type :=
| ExitError (status : syscall.WaitStatus)
| OtherError (e : error).

(** How the operating system ends a child: it was started and waited
    for, or there is no wait status (it could not be started, or
    waiting for it failed). *)
Inductive ChildEnd : Type :=
| Waited (status : syscall.WaitStatus)
| NotWaited (e : error).

(** [ProcessState.Success()]. *)
Definition Success (w : syscall.WaitStatus) : bool :=
  syscall.Exited w && (syscall.ExitStatus w =? 0).

End exec.

(** ** The cluster *)

(** [config.ClusterConfig]; [KubernetesVersion] is
    [KubernetesConfig.KubernetesVersion]. *)
Record ClusterConfig : Type := {
  Name : string;
  KubernetesVersion : string;
  BinaryMirror : string
}.

(** [config.Node]. *)
Record Node : Type := {
  NodeName : string;
  IP : string;
  Port : Z
}.

(** [mustload.ClusterController], with [CP.Node] as [CPNode]; the
    libmachine API handle is kept as the name of the machine store. *)
Record ClusterController : Type := {
  API : string;
  Config : ClusterConfig;
  CPNode : Node
}.

(** ** The outside world *)

(** What the other packages answer during one invocation. *)
Record World : Type := {
  (** [ClusterFlagValue()], the name of the selected cluster *)
  ClusterFlagValue : string;
  (** the [--ssh] flag *)
  useSSH : bool;
  (** [config.Load(name)] *)
  config_Load : string -> result ClusterConfig;
  (** [mustload.Running(name)]: the controller of the running cluster, or
      the status with which [mustload] itself ends the process *)
  mustload_Running : string -> ClusterController + Z;
  (** [machine.CreateSSHShell(api, cc, n, args, false)] *)
  machine_CreateSSHShell :
    string -> ClusterConfig -> Node -> list string -> option error;
  (** [detect.RuntimeArch()] *)
  detect_RuntimeArch : string;
  (** [node.CacheKubectlBinary(version, binaryURL)] *)
  node_CacheKubectlBinary : string -> string -> result string;
  (** [exec.LookPath(file)]: the path found, if any, and the error *)
  exec_LookPath : string -> string * option error;
  (** how a started command ends *)
  child : exec.Cmd -> exec.ChildEnd;
  (** [Execute()] of the embedded kubectl command with the given
      arguments: its error and what it wrote to its output *)
  kubectl_Execute : list string -> option error * string
}.

(** What the command does to the outside world, in order. *)
Inductive Event : Type :=
| klog_Infof (msg : string)
| Fprintf_Stderr (text : string)
| out_ErrLn (format : string) (arg : error)
| mustload_Running_call (name : string)
| CreateSSHShell_call (api : string) (cc : ClusterConfig) (n : Node)
    (args : list string) (native : bool)
| CacheKubectlBinary_call (version binaryURL : string)
| Cmd_Run_call (c : exec.Cmd).

(** A run of the command: it returns a value, or [os.Exit(rc)] ends the
    process. *)
Inductive Outcome (A : Type) : Type :=
| Done (a : A)
| Exit (rc : Z).
Arguments Done {A} a.
Arguments Exit {A} rc.

Definition Proc (A : Type) : Type := (list Event * Outcome A)%type.

Definition ret {A : Type} (a : A) : Proc A := ([], Done a).

Definition bind {A B : Type} (m : Proc A) (f : A -> Proc B) : Proc B :=
  match m with
  | (t, Done a) => let (t', o) := f a in ((t ++ t')%list, o)
  | (t, Exit rc) => (t, Exit rc)
  end.

Definition emit (e : Event) : Proc unit := ([e], Done tt).

Definition os_Exit {A : Type} (rc : Z) : Proc A := ([], Exit rc).

Notation "x <- m ;; k" := (bind m (fun x => k))
  (at level 61, m at next level, right associativity).
Notation "m ;; k" := (bind m (fun _ => k))
  (at level 61, right associativity).

(** The events of a run and the status the process ends with: the status
    given to [os.Exit], and 0 when the command returns. *)
Definition trace {A : Type} (p : Proc A) : list Event := fst p.

Definition exit_status {A : Type} (p : Proc A) : Z :=
  match snd p with
  | Done _ => 0
  | Exit rc => rc
  end.

(** The text of one newline. *)
Definition nl : string := String bufio.newline EmptyString.

(** [fmt]'s [%v] of a slice of strings. *)
Definition fmt_v (l : list string) : string :=
  "[" ++ strings.Join l " " ++ "]".

(** [exec.Command(name, arg...)]: a name without a directory is looked up
    in the search path. *)
Definition exec_Command (w : World) (name : string) (arg : list string)
  : exec.Cmd :=
  let cmd := {| exec.Path := name; exec.Args := name :: arg;
                exec.LookErr := None; exec.Stdin := None;
                exec.Stdout := None; exec.Stderr := None |} in
  if String.eqb (filepath.Base name) name then
    let (lp, err) := exec_LookPath w name in
    {| exec.Path := (if String.eqb lp "" then name else lp);
       exec.Args := name :: arg;
       exec.LookErr := err; exec.Stdin := None;
       exec.Stdout := None; exec.Stderr := None |}
  else cmd.

(** What [c.Run()] returns: a command whose lookup failed is not started;
    a child that was waited for gives [nil] when it succeeded and an
    [*exec.ExitError] otherwise. *)
Definition Cmd_Run_error (w : World) (c : exec.Cmd) : option exec.RunError :=
  match exec.LookErr c with
  | Some e => Some (exec.OtherError e)
  | None =>
      match child w c with
      | exec.Waited status =>
          if exec.Success status then None
          else Some (exec.ExitError status)
      | exec.NotWaited e => Some (exec.OtherError e)
      end
  end.

(** [c.Run()]. *)
Definition Cmd_Run (w : World) (c : exec.Cmd) : Proc (option exec.RunError) :=
  emit (Cmd_Run_call c) ;;
  ret (Cmd_Run_error w c).

(** The same world, where [config.Load] answers [loaded]. *)
Definition with_config_Load (w : World) (loaded : result ClusterConfig)
  : World :=
  {| ClusterFlagValue := ClusterFlagValue w;
     useSSH := useSSH w;
     config_Load := fun _ => loaded;
     mustload_Running := mustload_Running w;
     machine_CreateSSHShell := machine_CreateSSHShell w;
     detect_RuntimeArch := detect_RuntimeArch w;
     node_CacheKubectlBinary := node_CacheKubectlBinary w;
     exec_LookPath := exec_LookPath w;
     child := child w;
     kubectl_Execute := kubectl_Execute w |}.

(** ** The command *)

Section Kubectl.

(** [constants.DefaultKubernetesVersion],
    [constants.SupportedArchitectures] and [vmpath.GuestPersistentDir]:
    constants of other packages. *)
Variable DefaultKubernetesVersion : string.
Variable SupportedArchitectures : list string.
Variable GuestPersistentDir : string.

Definition tab : ascii := ascii_of_nat 9.

(** The candidate of one scanned line:
    [strings.Split(scanner.Text(), "\t")[0]], the text before its first
    tab. *)
Definition candidate (text : string) : string :=
  hd EmptyString (strings.Split text tab).

(** [kubectlCmd.ValidArgsFunction]. *)
Definition ValidArgsFunction (w : World) (args : list string)
    (toComplete : string) : slice * cobra.ShellCompDirective :=
  (* Run kubectl __complete $@ to get completions *)
  let (err, out) :=
    kubectl_Execute w
      (([cobra.ShellCompRequestCmd] ++ (args ++ [toComplete]))%list) in
  match err with
  | Some _ => (None, cobra.ShellCompDirectiveError)
  | None =>
      (* Scan completions *)
      let (tokens, scanErr) := bufio.Scanner out in
      let completions := map candidate tokens in
      match scanErr, completions with
      | Some _, _ | _, [] => (None, cobra.ShellCompDirectiveError)
      | None, _ :: _ =>
          (* The final line of completions will be a directive *)
          match strconv.Atoi
                  (strings.TrimPrefix (last completions EmptyString) ":")
          with
          | Err _ => (None, cobra.ShellCompDirectiveError)
          | Ok directive => (Some (removelast completions), directive)
          end
      end
  end.

(** The directive that [ValidArgsFunction] reads from a final line: the
    text before the first tab, without a leading colon, as an integer. *)
Definition directiveOf (line : string) : result cobra.ShellCompDirective :=
  strconv.Atoi (strings.TrimPrefix (candidate line) ":").

(** The completion proxy as the specification words it, over the lines of
    the output: a failed command, an output of zero lines or a final line
    that is no directive give no candidates and the error directive;
    otherwise the lines but the last, without their descriptions, and the
    directive of the last line. *)
Definition completion_by_lines (w : World) (args : list string)
    (toComplete : string) : slice * cobra.ShellCompDirective :=
  let (err, out) :=
    kubectl_Execute w
      (([cobra.ShellCompRequestCmd] ++ (args ++ [toComplete]))%list) in
  match err, bufio.lines out with
  | Some _, _ | _, [] => (None, cobra.ShellCompDirectiveError)
  | None, (_ :: _) as ls =>
      match directiveOf (last ls EmptyString) with
      | Err _ => (None, cobra.ShellCompDirectiveError)
      | Ok directive => (Some (map candidate (removelast ls)), directive)
      end
  end.

(** [kubectlPath]. *)
Definition kubectlPath (cfg : ClusterConfig) : string :=
  path.Join [GuestPersistentDir; "binaries"; KubernetesVersion cfg;
             "kubectl"].

(** [kubeconfigPath]. *)
Definition kubeconfigPath : string := "/etc/kubernetes/admin.conf".

(** [KubectlCommand]. *)
Definition KubectlCommand (w : World) (version binaryURL : string)
    (args : list string) : Proc (result exec.Cmd) :=
  let version :=
    if String.eqb version "" then DefaultKubernetesVersion else version in
  emit (CacheKubectlBinary_call version binaryURL) ;;
  match node_CacheKubectlBinary w version binaryURL with
  | Err err => ret (Err err)
  | Ok path => ret (Ok (exec_Command w path args))
  end.

(** The version [KubectlCommand] asks the locator for. *)
Definition locatorVersion (version : string) : string :=
  if String.eqb version "" then DefaultKubernetesVersion else version.

(** The version and the mirror of [Run], from the result of
    [config.Load]. *)
Definition versionAndMirror (loaded : result ClusterConfig)
  : string * string :=
  match loaded with
  | Ok cc => (KubernetesVersion cc, BinaryMirror cc)
  | Err _ => (DefaultKubernetesVersion, "")
  end.

(** The arguments of the remote shell:
    [kc := []string{"sudo"}] and the three [append]s, then
    [append(kc, args...)]. *)
Definition remoteArgs (cfg : ClusterConfig) (args : list string)
  : list string :=
  let kc := ["sudo"] in
  let kc := (kc ++ [kubectlPath cfg])%list in
  let kc := (kc ++ ["--kubeconfig"])%list in
  let kc := (kc ++ [kubeconfigPath])%list in
  (kc ++ args)%list.

(** The loop over the supported architectures, with its [break]. *)
Fixpoint supportedArch (arch : string) (archs : list string) : bool :=
  match archs with
  | [] => false
  | a :: archs' => if String.eqb arch a then true else supportedArch arch archs'
  end.

(** The arguments of the local kubectl: [--cluster] and the name of the
    cluster go first, unless there is at most one argument or the first
    one is [--help] or the completion request. *)
Definition localArgs (cname : string) (args : list string) : list string :=
  if (1 <? length args)%nat
     && negb (String.eqb (hd EmptyString args) "--help")
     && negb (String.eqb (hd EmptyString args) cobra.ShellCompRequestCmd)
  then
    let cluster := ["--cluster"; cname] in
    (cluster ++ args)%list
  else args.

(** [c.Stdin = os.Stdin; c.Stdout = os.Stdout; c.Stderr = os.Stderr]. *)
Definition inheritStdio (c : exec.Cmd) : exec.Cmd :=
  {| exec.Path := exec.Path c; exec.Args := exec.Args c;
     exec.LookErr := exec.LookErr c;
     exec.Stdin := Some os.Stdin; exec.Stdout := Some os.Stdout;
     exec.Stderr := Some os.Stderr |}.

(** The end of [Run], once [c.Run()] has returned [err]: the exit status
    of the child is passed on; an error that is not an [*exec.ExitError]
    is reported and the status is 1. *)
Definition exitWith (c : exec.Cmd) (err : option exec.RunError) : Proc unit :=
  match err with
  | None => ret tt
  | Some err =>
      rc <- match err with
            | exec.ExitError waitStatus =>
                ret (syscall.ExitStatus waitStatus)
            | exec.OtherError e =>
                emit (Fprintf_Stderr
                        ("Error running " ++ exec.Path c ++ ": "
                           ++ e ++ nl)) ;;
                ret 1
            end ;;
      os_Exit rc
  end.

(** [kubectlCmd.Run]. *)
Definition Run (w : World) (args : list string) : Proc unit :=
  let (version, binaryMirror) :=
    versionAndMirror (config_Load w (ClusterFlagValue w)) in
  let cname := ClusterFlagValue w in
  if useSSH w then
    emit (mustload_Running_call cname) ;;
    match mustload_Running w cname with
    | inr rc => os_Exit rc
    | inl co =>
        let n := CPNode co in
        let args := remoteArgs (Config co) args in
        emit (klog_Infof ("Running SSH " ++ fmt_v args)) ;;
        emit (CreateSSHShell_call (API co) (Config co) n args false) ;;
        match machine_CreateSSHShell w (API co) (Config co) n args with
        | Some err =>
            emit (Fprintf_Stderr ("Error running kubectl: " ++ err)) ;;
            os_Exit 1
        | None => ret tt
        end
    end
  else
    let arch := detect_RuntimeArch w in
    let supported := supportedArch arch SupportedArchitectures in
    (if negb supported then
       emit (Fprintf_Stderr ("Not supported on: " ++ arch ++ nl)) ;;
       os_Exit 1
     else ret tt) ;;
    let args := localArgs cname args in
    r <- KubectlCommand w version binaryMirror args ;;
    match r with
    | Err err =>
        emit (out_ErrLn "Error caching kubectl: %v" err) ;;
        os_Exit 1
    | Ok c =>
        emit (klog_Infof
                ("Running " ++ exec.Path c ++ " " ++ fmt_v args)) ;;
        let c := inheritStdio c in
        err <- Cmd_Run w c ;;
        exitWith c err
    end.

End Kubectl.

(** ** Concrete worlds *)

(** The constants of a build, for the examples: a default version, the
    supported architectures and the persistent directory of the guest. *)
Definition exampleDefaultVersion : string := "v1.20.0".
Definition exampleArchitectures : list string :=
  ["amd64"; "arm"; "arm64"; "ppc64le"; "s390x"].
Definition exampleGuestDir : string := "/var/lib/minikube".

Definition exampleConfig : ClusterConfig :=
  {| Name := "c1"; KubernetesVersion := "v1.19.4";
     BinaryMirror := "https://mirror.example" |}.

Definition exampleController : ClusterController :=
  {| API := "machines"; Config := exampleConfig;
     CPNode := {| NodeName := "m01"; IP := "192.168.49.2"; Port := 8443 |} |}.

(** A local invocation on amd64: the configuration loads, the binary is
    cached under [/cache], and the child exits with status 42; the
    embedded kubectl answers two candidates and the directive 4. *)
Definition exampleWorld : World :=
  {| ClusterFlagValue := "c1";
     useSSH := false;
     config_Load := fun _ => Ok exampleConfig;
     mustload_Running := fun _ => inl exampleController;
     machine_CreateSSHShell := fun _ _ _ _ => None;
     detect_RuntimeArch := "amd64";
     node_CacheKubectlBinary :=
       fun version _ => Ok ("/cache/" ++ version ++ "/kubectl");
     exec_LookPath := fun _ => ("", Some "executable file not found in $PATH");
     child := fun _ => exec.Waited (Z.shiftl 42 8);
     kubectl_Execute :=
       fun _ => (None,
                 "pod-a" ++ String tab "first pod" ++ nl
                   ++ "pod-b" ++ nl ++ ":4" ++ nl) |}.

(** The same world with another answer of a collaborator. *)
Definition with_useSSH (w : World) (b : bool) : World :=
  {| ClusterFlagValue := ClusterFlagValue w;
     useSSH := b;
     config_Load := config_Load w;
     mustload_Running := mustload_Running w;
     machine_CreateSSHShell := machine_CreateSSHShell w;
     detect_RuntimeArch := detect_RuntimeArch w;
     node_CacheKubectlBinary := node_CacheKubectlBinary w;
     exec_LookPath := exec_LookPath w;
     child := child w;
     kubectl_Execute := kubectl_Execute w |}.

Definition with_RuntimeArch (w : World) (arch : string) : World :=
  {| ClusterFlagValue := ClusterFlagValue w;
     useSSH := useSSH w;
     config_Load := config_Load w;
     mustload_Running := mustload_Running w;
     machine_CreateSSHShell := machine_CreateSSHShell w;
     detect_RuntimeArch := arch;
     node_CacheKubectlBinary := node_CacheKubectlBinary w;
     exec_LookPath := exec_LookPath w;
     child := child w;
     kubectl_Execute := kubectl_Execute w |}.

Definition with_CacheKubectlBinary (w : World)
    (locator : string -> string -> result string) : World :=
  {| ClusterFlagValue := ClusterFlagValue w;
     useSSH := useSSH w;
     config_Load := config_Load w;
     mustload_Running := mustload_Running w;
     machine_CreateSSHShell := machine_CreateSSHShell w;
     detect_RuntimeArch := detect_RuntimeArch w;
     node_CacheKubectlBinary := locator;
     exec_LookPath := exec_LookPath w;
     child := child w;
     kubectl_Execute := kubectl_Execute w |}.

Definition with_child (w : World) (ending : exec.ChildEnd) : World :=
  {| ClusterFlagValue := ClusterFlagValue w;
     useSSH := useSSH w;
     config_Load := config_Load w;
     mustload_Running := mustload_Running w;
     machine_CreateSSHShell := machine_CreateSSHShell w;
     detect_RuntimeArch := detect_RuntimeArch w;
     node_CacheKubectlBinary := node_CacheKubectlBinary w;
     exec_LookPath := exec_LookPath w;
     child := fun _ => ending;
     kubectl_Execute := kubectl_Execute w |}.

Definition with_kubectl_Execute (w : World)
    (answer : option error * string) : World :=
  {| ClusterFlagValue := ClusterFlagValue w;
     useSSH := useSSH w;
     config_Load := config_Load w;
     mustload_Running := mustload_Running w;
     machine_CreateSSHShell := machine_CreateSSHShell w;
     detect_RuntimeArch := detect_RuntimeArch w;
     node_CacheKubectlBinary := node_CacheKubectlBinary w;
     exec_LookPath := exec_LookPath w;
     child := child w;
     kubectl_Execute := fun _ => answer |}.

(** The command with the constants of the examples. *)
Definition exampleRun : World -> list string -> Proc unit :=
  Run exampleDefaultVersion exampleArchitectures exampleGuestDir.

(** The child that [exampleRun exampleWorld ["get"; "pods"]] starts. *)
Definition exampleChild : exec.Cmd :=
  {| exec.Path := "/cache/v1.19.4/kubectl";
     exec.Args := ["/cache/v1.19.4/kubectl"; "--cluster"; "c1"; "get"; "pods"];
     exec.LookErr := None;
     exec.Stdin := Some os.Stdin;
     exec.Stdout := Some os.Stdout;
     exec.Stderr := Some os.Stderr |}.


Definition riscvWorld : World := with_RuntimeArch exampleWorld "riscv64".

Definition offlineWorld : World :=
  with_CacheKubectlBinary exampleWorld (fun _ _ => Err "download failed").

Definition noConfigWorld : World :=
  with_config_Load exampleWorld (Err "open config.json: no such file").

(** A remote invocation. *)
Definition sshWorld : World := with_useSSH exampleWorld true.

(** An embedded kubectl that answers a directive and nothing else. *)
Definition directiveOnlyWorld : World :=
  with_kubectl_Execute exampleWorld (None, ":4" ++ nl).

(** An output with a line of [bufio.MaxScanTokenSize] bytes between a
    candidate and the directive. *)
Definition longLine : string :=
  N.iter bufio.MaxScanTokenSize (String "a") EmptyString.

Definition longLineOutput : string :=
  "pod-a" ++ nl ++ longLine ++ nl ++ ":4" ++ nl.

Definition longLineWorld : World :=
  with_kubectl_Execute exampleWorld (None, longLineOutput).

(** ** Reading a trace *)

(** The events of the local mode: the call of the locator, the start of a
    child and the diagnostic of [out.ErrLn]. *)
Definition isLocalEvent (ev : Event) : bool :=
  match ev with
  | CacheKubectlBinary_call _ _ | Cmd_Run_call _ | out_ErrLn _ _ => true
  | _ => false
  end.

(** The events of the remote mode: the call of [mustload.Running] and the
    remote shell. *)
Definition isRemoteEvent (ev : Event) : bool :=
  match ev with
  | mustload_Running_call _ | CreateSSHShell_call _ _ _ _ _ => true
  | _ => false
  end.

(** A kubectl is executed: a local child is started, or a remote shell
    is opened. *)
Definition isExecution (ev : Event) : bool :=
  match ev with
  | Cmd_Run_call _ | CreateSSHShell_call _ _ _ _ _ => true
  | _ => false
  end.

Definition isLocatorCall (ev : Event) : bool :=
  match ev with
  | CacheKubectlBinary_call _ _ => true
  | _ => false
  end.

(** Something is printed for the user: on standard error, or through
    [out.ErrLn]. *)
Definition isDiagnostic (ev : Event) : bool :=
  match ev with
  | Fprintf_Stderr _ | out_ErrLn _ _ => true
  | _ => false
  end.

(** How many events of a trace pass the test. *)
Definition count (test : Event -> bool) (t : list Event) : nat :=
  length (filter test t).

(** The same world with another cluster behind [mustload.Running], and
    with another answer of the remote shell. *)
Definition with_mustload_Running (w : World)
    (answer : ClusterController + Z) : World :=
  {| ClusterFlagValue := ClusterFlagValue w;
     useSSH := useSSH w;
     config_Load := config_Load w;
     mustload_Running := fun _ => answer;
     machine_CreateSSHShell := machine_CreateSSHShell w;
     detect_RuntimeArch := detect_RuntimeArch w;
     node_CacheKubectlBinary := node_CacheKubectlBinary w;
     exec_LookPath := exec_LookPath w;
     child := child w;
     kubectl_Execute := kubectl_Execute w |}.

Definition with_CreateSSHShell (w : World) (answer : option error) : World :=
  {| ClusterFlagValue := ClusterFlagValue w;
     useSSH := useSSH w;
     config_Load := config_Load w;
     mustload_Running := mustload_Running w;
     machine_CreateSSHShell := fun _ _ _ _ => answer;
     detect_RuntimeArch := detect_RuntimeArch w;
     node_CacheKubectlBinary := node_CacheKubectlBinary w;
     exec_LookPath := exec_LookPath w;
     child := child w;
     kubectl_Execute := kubectl_Execute w |}.

(** Remote worlds: a remote kubectl that fails, and a cluster that is not
    running, for which [mustload] ends the process itself. *)
Definition sshFailWorld : World :=
  with_CreateSSHShell sshWorld (Some "Process exited with status 3").

Definition stoppedWorld : World := with_mustload_Running sshWorld (inr 85).

(** A local world whose child is killed by signal 9. *)
Definition killedWorld : World := with_child exampleWorld (exec.Waited 9).

(** ** The completion protocol *)

(** What cobra's [__complete] command prints, which is what the embedded
    kubectl writes to [out]: one line for each completion, with its
    description after a tab when it has one, and a last line with a colon
    and the directive in decimal.  The lines end with a newline, or with
    a carriage return and a newline when the output went through a
    translation of line ends. *)
Definition completion_line (item : string * option string) : string :=
  match snd item with
  | None => fst item
  | Some description => fst item ++ String tab description
  end.

Definition carriage_return_if (crlf : bool) : string :=
  if crlf then String bufio.carriage_return EmptyString else EmptyString.

Definition end_of_line (crlf : bool) : string :=
  carriage_return_if crlf ++ nl.

Fixpoint completion_output (crlf : bool)
    (items : list (string * option string)) (directive : Z) : string :=
  match items with
  | [] => ":" ++ strconv.Itoa directive ++ end_of_line crlf
  | item :: items' =>
      completion_line item ++ end_of_line crlf
        ++ completion_output crlf items' directive
  end.

(** A byte that may stand in a completion: no tab, no newline and no
    carriage return. *)
Definition plain_byte (c : ascii) : bool :=
  negb (Ascii.eqb c tab) && negb (Ascii.eqb c bufio.newline)
  && negb (Ascii.eqb c bufio.carriage_return).

(** A completion of plain bytes, with a description of one line. *)
Definition one_line_item (item : string * option string) : bool :=
  bytes_all plain_byte (fst item)
  && match snd item with
     | None => true
     | Some description =>
         bytes_all (fun c => negb (Ascii.eqb c bufio.newline)) description
     end.

(** An embedded kubectl that answers three completions, two of them with
    a description, and the directive 4. *)
Definition exampleItems : list (string * option string) :=
  [("pod-a", Some "first pod"); ("pod-b", None); ("pod-c", Some "")].

Definition protocolWorld (crlf : bool) : World :=
  with_kubectl_Execute exampleWorld
    (None, completion_output crlf exampleItems 4).

(** ** Rooted buffers *)

(** The buffer of [Clean] holds a rooted path: its first byte, the last
    of the list, is a slash. *)
Definition rooted_buffer (out : list ascii) : Prop :=
  exists o : list ascii, out = (o ++ [path.slash])%list.

(** * Properties *)

Unset Implicit Arguments.

Section Properties.

Variable DefaultKubernetesVersion : string.
Variable SupportedArchitectures : list string.
Variable GuestPersistentDir : string.

Local Abbreviation Run := (Run DefaultKubernetesVersion SupportedArchitectures).
Local Abbreviation KubectlCommand := (KubectlCommand DefaultKubernetesVersion).
Local Abbreviation versionAndMirror := (versionAndMirror DefaultKubernetesVersion).
Local Abbreviation kubectlPath := (kubectlPath GuestPersistentDir).
Local Abbreviation remoteArgs := (remoteArgs GuestPersistentDir).
Local Abbreviation locatorVersion := (locatorVersion DefaultKubernetesVersion).

(** *** The shape of a run *)

Lemma supportedArch_In (arch : string) (archs : list string) :
  supportedArch arch archs = true <-> In arch archs.
Proof.
  induction archs as [|a archs IH]; simpl.
  - split; [discriminate | tauto].
  - destruct (String.eqb_spec arch a) as [->|Hne].
    + split; auto.
    + rewrite IH. split; [auto | intros [H|H]; [congruence | exact H]].
Qed.

(** Every local run has one of three shapes. *)
Lemma Run_local (w : World) (args : list string) :
  useSSH w = false ->
  Run GuestPersistentDir w args =
    let vm := versionAndMirror (config_Load w (ClusterFlagValue w)) in
    let v := locatorVersion (fst vm) in
    let args' := localArgs (ClusterFlagValue w) args in
    if supportedArch (detect_RuntimeArch w) SupportedArchitectures then
      match node_CacheKubectlBinary w v (snd vm) with
      | Err e =>
          ([CacheKubectlBinary_call v (snd vm);
            out_ErrLn "Error caching kubectl: %v" e], Exit 1)
      | Ok p =>
          let c := inheritStdio (exec_Command w p args') in
          let r := exitWith c (Cmd_Run_error w c) in
          (CacheKubectlBinary_call v (snd vm)
             :: klog_Infof ("Running " ++ exec.Path c ++ " " ++ fmt_v args')
             :: Cmd_Run_call c :: fst r, snd r)
      end
    else
      ([Fprintf_Stderr ("Not supported on: " ++ detect_RuntimeArch w ++ nl)],
       Exit 1).
Proof.
  intros Hlocal. unfold Run, locatorVersion.
  destruct (versionAndMirror _) as [v m]. rewrite Hlocal. cbn.
  destruct (supportedArch _ _); cbn; [|reflexivity].
  destruct (node_CacheKubectlBinary w _ m) as [p|e]; cbn; [|reflexivity].
  destruct (exitWith _ _) as [t o]. reflexivity.
Qed.

(** The events after [c.Run()] are diagnostics on standard error. *)
Lemma exitWith_events (c : exec.Cmd) (err : option exec.RunError) (ev : Event) :
  In ev (fst (exitWith c err)) -> exists text, ev = Fprintf_Stderr text.
Proof.
  destruct err as [[status|e]|]; cbn; try tauto.
  intros [<-|[]]. eauto.
Qed.

Lemma exec_Command_Args (w : World) (name : string) (arg : list string) :
  exec.Args (exec_Command w name arg) = name :: arg.
Proof.
  unfold exec_Command. destruct (String.eqb _ _); [|reflexivity].
  destruct (exec_LookPath w name). reflexivity.
Qed.

Lemma exec_Command_Path (w : World) (name : string) (arg : list string) :
  filepath.Base name <> name -> exec.Path (exec_Command w name arg) = name.
Proof.
  intros Hbase. unfold exec_Command.
  destruct (String.eqb_spec (filepath.Base name) name); [contradiction|].
  reflexivity.
Qed.

(** A local run that starts a child has resolved the binary on a supported
    architecture, and the child is the cached binary with the local
    arguments and the streams of the parent. *)
Lemma Run_local_spawned (w : World) (args : list string) (c : exec.Cmd) :
  useSSH w = false ->
  In (Cmd_Run_call c) (trace (Run GuestPersistentDir w args)) ->
  let vm := versionAndMirror (config_Load w (ClusterFlagValue w)) in
  exists p,
    supportedArch (detect_RuntimeArch w) SupportedArchitectures = true
    /\ node_CacheKubectlBinary w (locatorVersion (fst vm)) (snd vm) = Ok p
    /\ c = inheritStdio
             (exec_Command w p (localArgs (ClusterFlagValue w) args))
    /\ Run GuestPersistentDir w args =
         (CacheKubectlBinary_call (locatorVersion (fst vm)) (snd vm)
            :: klog_Infof ("Running " ++ exec.Path c ++ " "
                             ++ fmt_v (localArgs (ClusterFlagValue w) args))
            :: Cmd_Run_call c :: fst (exitWith c (Cmd_Run_error w c)),
          snd (exitWith c (Cmd_Run_error w c))).
Proof.
  intros Hlocal Hin. cbv zeta. rewrite (Run_local w args Hlocal) in *.
  cbv zeta in *.
  destruct (supportedArch _ _).
  - destruct (node_CacheKubectlBinary w _ _) as [p|e].
    + exists p. cbn in Hin.
      destruct Hin as [H|[H|[H|H]]]; try discriminate.
      * injection H as <-. auto.
      * apply exitWith_events in H. destruct H as [text H]. discriminate.
    + cbn in Hin. destruct Hin as [H|[H|[]]]; discriminate.
  - cbn in Hin. destruct Hin as [H|[]]; discriminate.
Qed.

(** *** Cluster scoping of the local arguments *)

(** C1. In local mode the pair [--cluster <name>] is not added to an
    argument list of length at most 1, nor to one whose first token is
    [--help] or the completion request; every other list (of length more
    than 1) gets the pair once, in front of the original arguments, which
    follow unchanged; and these are the arguments of the kubectl that a
    local run starts. *)
Theorem localArgs_cluster_scoping (cname : string) (args : list string) :
  (((length args <= 1)%nat \/ hd_error args = Some "--help"
    \/ hd_error args = Some cobra.ShellCompRequestCmd) ->
   localArgs cname args = args)
  /\ ((1 < length args)%nat ->
      hd_error args <> Some "--help" ->
      hd_error args <> Some cobra.ShellCompRequestCmd ->
      localArgs cname args = (["--cluster"; cname] ++ args)%list)
  /\ (forall (w : World) (c : exec.Cmd),
        useSSH w = false -> ClusterFlagValue w = cname ->
        In (Cmd_Run_call c) (trace (Run GuestPersistentDir w args)) ->
        tl (exec.Args c) = localArgs cname args).
Proof.
  split; [|split].
  - unfold localArgs. intros [Hlen|[Hhelp|Hcompl]].
    + destruct (Nat.ltb_spec 1 (length args)); [lia|reflexivity].
    + destruct args as [|a args]; [reflexivity|]. injection Hhelp as ->.
      cbn. now rewrite andb_false_r.
    + destruct args as [|a args]; [reflexivity|]. injection Hcompl as ->.
      cbn. now rewrite !andb_false_r.
  - unfold localArgs. intros Hlen Hhelp Hcompl.
    destruct args as [|a args]; [simpl in Hlen; lia|].
    destruct (Nat.ltb_spec 1 (length (a :: args))); [|lia].
    cbn [hd]. cbn in Hhelp, Hcompl.
    destruct (String.eqb_spec a "--help") as [->|_]; [congruence|].
    destruct (String.eqb_spec a cobra.ShellCompRequestCmd) as [->|_];
      [congruence|].
    reflexivity.
  - intros w c Hlocal <- Hin.
    destruct (Run_local_spawned w args c Hlocal Hin) as (p & _ & _ & -> & _).
    cbn. now rewrite exec_Command_Args.
Qed.

(** *** Clean paths *)

Lemma append_assoc (s1 s2 s3 : string) : (s1 ++ s2) ++ s3 = s1 ++ (s2 ++ s3).
Proof. induction s1 as [|c s1 IH]; cbn; [reflexivity | now rewrite IH]. Qed.

Lemma length_append (s1 s2 : string) :
  String.length (s1 ++ s2) = (String.length s1 + String.length s2)%nat.
Proof. induction s1 as [|c s1 IH]; cbn; [reflexivity | now rewrite IH]. Qed.

Lemma rev_string_push (e : string) :
  forall (buf : list ascii) (tail : string),
    rev_string (path.push e buf) tail = rev_string buf (e ++ tail).
Proof.
  induction e as [|c e IH]; intros buf tail; cbn; [reflexivity|].
  now rewrite IH.
Qed.

Lemma length_push (e : string) :
  forall buf : list ascii,
    length (path.push e buf) = (String.length e + length buf)%nat.
Proof.
  induction e as [|c e IH]; intros buf; cbn; [reflexivity|].
  rewrite IH. cbn. lia.
Qed.

Lemma rooted_path_boundary (elems : list string) :
  path.at_boundary (path.rooted_path elems) = true.
Proof. destruct elems; reflexivity. Qed.

Lemma rooted_path_app (l1 l2 : list string) :
  path.rooted_path (l1 ++ l2)
  = path.rooted_path l1 ++ path.rooted_path l2.
Proof.
  induction l1 as [|e l1 IH]; cbn; [reflexivity|].
  now rewrite IH, append_assoc.
Qed.

Lemma plain_element_inv (e : string) :
  path.plain_element e = true ->
  e <> "" /\ e <> "." /\ e <> ".."
  /\ bytes_all (fun c => negb (Ascii.eqb c path.slash)) e = true.
Proof.
  unfold path.plain_element. intros H.
  apply andb_prop in H. destruct H as [H Hslash].
  apply andb_prop in H. destruct H as [H Hdotdot].
  apply andb_prop in H. destruct H as [Hempty Hdot].
  apply negb_true_iff in Hempty, Hdot, Hdotdot.
  apply String.eqb_neq in Hempty, Hdot, Hdotdot. auto.
Qed.

Lemma rooted_path_length (elems : list string) :
  forallb path.plain_element elems = true ->
  (2 * length elems <= String.length (path.rooted_path elems))%nat.
Proof.
  induction elems as [|e elems IH]; cbn [forallb]; intros H; [cbn; lia|].
  apply andb_prop in H. destruct H as [He Helems].
  apply plain_element_inv in He. destruct He as (Hne & _).
  cbn [path.rooted_path String.length length]. rewrite length_append.
  specialize (IH Helems). destruct e; [congruence|]. cbn [String.length]. lia.
Qed.

(** Copying an element stops at the slash that follows it. *)
Lemma element_push (e : string) :
  forall (rest : string) (acc : list ascii),
    bytes_all (fun c => negb (Ascii.eqb c path.slash)) e = true ->
    path.at_boundary rest = true ->
    path.element (e ++ rest) acc = (path.push e acc, rest).
Proof.
  induction e as [|c e IH]; intros rest acc He Hrest.
  - destruct rest as [|c rest]; [reflexivity|].
    cbn in *. now rewrite Hrest.
  - cbn [bytes_all] in He. apply andb_prop in He. destruct He as [Hc He].
    apply negb_true_iff in Hc. cbn [append path.element path.push].
    rewrite Hc. now apply IH.
Qed.

(** One turn of the loop of [Clean] on a plain element of a rooted path:
    a slash, unless the buffer holds the root alone, and the element. *)
Lemma clean_loop_element (fuel : nat) (e rest : string) (out : list ascii)
    (dotdot : nat) :
  path.plain_element e = true ->
  path.at_boundary rest = true ->
  path.clean_loop (S fuel) true (e ++ rest) out dotdot
  = path.clean_loop fuel true rest
      (path.push e (if (length out =? 1)%nat then out else path.slash :: out))
      dotdot.
Proof.
  intros He Hrest. apply plain_element_inv in He.
  destruct He as (Hempty & Hdot & Hdotdot & Hslash).
  pose proof (element_push e rest) as Hcopy.
  destruct e as [|c e]; [congruence|].
  cbn [bytes_all] in Hslash. apply andb_prop in Hslash.
  destruct Hslash as [Hc He]. apply negb_true_iff in Hc.
  assert (Hskip : (Ascii.eqb c path.dot && path.at_boundary (e ++ rest)
                   = false)
                  /\ (Ascii.eqb c path.dot && path.HasDotBoundary (e ++ rest)
                      = false)).
  { destruct (Ascii.eqb_spec c path.dot) as [->|_]; [|auto].
    destruct e as [|c2 e]; [now elim Hdot|].
    cbn [bytes_all] in He. apply andb_prop in He. destruct He as [Hc2 He].
    apply negb_true_iff in Hc2.
    cbn [append path.at_boundary path.HasDotBoundary andb]. rewrite Hc2.
    split; [reflexivity|].
    destruct (Ascii.eqb_spec c2 path.dot) as [->|_]; [|reflexivity].
    destruct e as [|c3 e]; [now elim Hdotdot|].
    cbn [bytes_all] in He. apply andb_prop in He. destruct He as [Hc3 _].
    apply negb_true_iff in Hc3. cbn [append path.at_boundary andb].
    exact Hc3. }
  destruct Hskip as [Hskip1 Hskip2].
  cbn [append path.clean_loop]. rewrite Hc, Hskip1, Hskip2.
  cbn [andb negb orb]. rewrite orb_false_r.
  change (String c (e ++ rest)) with (String c e ++ rest).
  assert (Hall : bytes_all (fun c => negb (Ascii.eqb c path.slash))
                   (String c e) = true)
    by (cbn [bytes_all]; now rewrite Hc, He).
  destruct (length out =? 1)%nat; cbn [negb];
    now rewrite (Hcopy _ Hall Hrest).
Qed.

(** The loop of [Clean] leaves a rooted path of plain elements as it
    is. *)
Lemma clean_loop_rooted (elems : list string) :
  forall (fuel : nat) (out : list ascii) (dotdot : nat),
    forallb path.plain_element elems = true ->
    (2 * length elems <= fuel)%nat ->
    (2 <= length out)%nat ->
    rev_string (path.clean_loop fuel true (path.rooted_path elems) out dotdot)
      EmptyString
    = rev_string out (path.rooted_path elems).
Proof.
  induction elems as [|e elems IH]; intros fuel out dotdot Hplain Hfuel Hout.
  - now destruct fuel.
  - cbn [forallb] in Hplain. apply andb_prop in Hplain.
    destruct Hplain as [He Helems]. cbn [length] in Hfuel.
    destruct fuel as [|[|fuel]]; [lia | lia |].
    cbn [path.rooted_path].
    change (path.clean_loop (S (S fuel)) true
              (String path.slash (e ++ path.rooted_path elems)) out dotdot)
      with (path.clean_loop (S fuel) true (e ++ path.rooted_path elems)
              out dotdot).
    rewrite (clean_loop_element _ _ _ _ _ He (rooted_path_boundary elems)).
    destruct (Nat.eqb_spec (length out) 1) as [Hone|_]; [lia|].
    rewrite IH; [| exact Helems | lia | rewrite length_push; cbn; lia].
    now rewrite rev_string_push.
Qed.

Lemma Clean_rooted (elems : list string) :
  elems <> [] ->
  forallb path.plain_element elems = true ->
  path.Clean (path.rooted_path elems) = path.rooted_path elems.
Proof.
  intros Hne Hplain. destruct elems as [|e elems]; [congruence|].
  cbn [forallb] in Hplain. apply andb_prop in Hplain.
  destruct Hplain as [He Helems].
  unfold path.Clean. cbn [path.rooted_path].
  change (Ascii.eqb path.slash path.slash) with true. cbv iota.
  cbn [String.length].
  rewrite (clean_loop_element _ _ _ _ _ He (rooted_path_boundary elems)).
  cbn [length Nat.eqb].
  pose proof (clean_loop_rooted elems
                (S (String.length (e ++ path.rooted_path elems)))
                (path.push e [path.slash]) 1%nat Helems) as Hloop.
  pose proof (rooted_path_length elems Helems) as Hlen.
  pose proof (length_append e (path.rooted_path elems)) as Happ.
  apply plain_element_inv in He. destruct He as (Hempty & _).
  assert (Hpos : (1 <= String.length e)%nat)
    by (destruct e; [congruence | cbn; lia]).
  specialize (Hloop ltac:(lia)
                    ltac:(rewrite length_push; cbn [length]; lia)).
  rewrite rev_string_push in Hloop. cbn [rev_string] in Hloop.
  destruct (path.clean_loop _ _ _ _ _); [discriminate Hloop | exact Hloop].
Qed.

(** Under a persistent directory that is a rooted path of plain elements,
    and for a version that is a plain element, the path of kubectl is
    the plain concatenation. *)
Lemma kubectlPath_literal (cfg : ClusterConfig) (dirs : list string) :
  dirs <> [] ->
  forallb path.plain_element dirs = true ->
  path.plain_element (KubernetesVersion cfg) = true ->
  GuestPersistentDir = path.rooted_path dirs ->
  kubectlPath cfg
  = GuestPersistentDir ++ "/binaries/" ++ KubernetesVersion cfg ++ "/kubectl".
Proof.
  intros Hne Hdirs Hversion ->.
  assert (Hjoin : path.Join [path.rooted_path dirs; "binaries";
                             KubernetesVersion cfg; "kubectl"]
                  = path.Clean
                      (path.rooted_path
                         (dirs ++ ["binaries"; KubernetesVersion cfg;
                                   "kubectl"]))).
  { rewrite rooted_path_app. destruct dirs as [|d dirs]; [congruence|].
    unfold path.Join. cbn [path.rooted_path forallb String.length Nat.eqb andb].
    cbn [path.join_loop append]. rewrite !append_assoc. reflexivity. }
  unfold kubectlPath. rewrite Hjoin, Clean_rooted.
  - rewrite rooted_path_app. reflexivity.
  - destruct dirs; [congruence | discriminate].
  - rewrite forallb_app, Hdirs. cbn [forallb]. rewrite Hversion. reflexivity.
Qed.

(** *** The arguments of the remote shell *)

(** C2. In remote mode the argument list is [sudo], the path of the
    kubectl of the cluster's version under the persistent directory of
    the guest ([path.Join] of the directory, [binaries], the version and
    [kubectl]), [--kubeconfig], [/etc/kubernetes/admin.conf], and then
    the original arguments as they are; this is the list handed to the
    remote shell; with the path [P] and the arguments [get pods] it is
    [sudo P --kubeconfig /etc/kubernetes/admin.conf get pods]; and the
    joined path is the text [<GuestPersistentDir>/binaries/<v>/kubectl]
    when the directory is a clean rooted path and the version a plain
    path element. *)
Theorem remoteArgs_shape (cfg : ClusterConfig) (A : list string) :
  remoteArgs cfg A =
    (["sudo";
      path.Join [GuestPersistentDir; "binaries"; KubernetesVersion cfg;
                 "kubectl"];
      "--kubeconfig"; "/etc/kubernetes/admin.conf"] ++ A)%list
  /\ (forall (w : World) (co : ClusterController),
        useSSH w = true ->
        mustload_Running w (ClusterFlagValue w) = inl co ->
        Config co = cfg ->
        In (CreateSSHShell_call (API co) cfg (CPNode co)
              (["sudo"; kubectlPath cfg; "--kubeconfig";
                "/etc/kubernetes/admin.conf"] ++ A)%list false)
           (trace (Run GuestPersistentDir w A)))
  /\ (forall P : string,
        kubectlPath cfg = P ->
        remoteArgs cfg ["get"; "pods"] =
          ["sudo"; P; "--kubeconfig"; "/etc/kubernetes/admin.conf";
           "get"; "pods"])
  /\ (forall dirs : list string,
        dirs <> [] ->
        forallb path.plain_element dirs = true ->
        path.plain_element (KubernetesVersion cfg) = true ->
        GuestPersistentDir = path.rooted_path dirs ->
        remoteArgs cfg A =
          (["sudo";
            (GuestPersistentDir ++ "/binaries/" ++ KubernetesVersion cfg
               ++ "/kubectl")%string;
            "--kubeconfig"; "/etc/kubernetes/admin.conf"] ++ A)%list).
Proof.
  split; [reflexivity|split; [|split]].
  - intros w co Hssh Hco <-. unfold Run.
    destruct (versionAndMirror _) as [v m]. rewrite Hssh. cbn.
    rewrite Hco. cbn.
    destruct (machine_CreateSSHShell w _ _ _ _); cbn; auto.
  - intros P <-. reflexivity.
  - intros dirs Hne Hdirs Hversion Hdir.
    rewrite <- (kubectlPath_literal cfg dirs Hne Hdirs Hversion Hdir).
    reflexivity.
Qed.

(** *** The architecture check *)

(** C5. In local mode, on an architecture of the supported set the run
    goes on to resolve the binary: its first event is the call of the
    locator, and the diagnostic of the architecture check is printed
    nowhere in the run; on any other architecture the run prints that
    diagnostic and exits with status 1, and nothing else happens: no
    binary is resolved and no child is started. *)
Theorem Run_architecture_check (w : World) (args : list string) :
  useSSH w = false ->
  let arch := detect_RuntimeArch w in
  let unsupported := Fprintf_Stderr ("Not supported on: " ++ arch ++ nl) in
  (In arch SupportedArchitectures ->
   (exists version mirror rest,
       trace (Run GuestPersistentDir w args)
       = CacheKubectlBinary_call version mirror :: rest)
   /\ ~ In unsupported (trace (Run GuestPersistentDir w args)))
  /\ (~ In arch SupportedArchitectures ->
      Run GuestPersistentDir w args = ([unsupported], Exit 1)
      /\ exit_status (Run GuestPersistentDir w args) = 1
      /\ (forall version mirror,
             ~ In (CacheKubectlBinary_call version mirror)
                  (trace (Run GuestPersistentDir w args)))
      /\ (forall c, ~ In (Cmd_Run_call c)
                         (trace (Run GuestPersistentDir w args)))).
Proof.
  intros Hlocal arch unsupported. subst arch unsupported.
  rewrite (Run_local w args Hlocal). cbv zeta. split.
  - intros Hin. apply supportedArch_In in Hin. rewrite Hin.
    destruct (node_CacheKubectlBinary w _ _) as [p|e]; cbn [trace fst].
    + split; [eauto|].
      intros [H|[H|[H|H]]]; try discriminate.
      destruct (Cmd_Run_error w _) as [[status|e]|]; cbn in H;
        try contradiction.
      destruct H as [H|[]]. discriminate.
    + split; [eauto|]. intros [H|[H|[]]]; discriminate.
  - intros Hnot.
    destruct (supportedArch _ _) eqn:Hsup;
      [apply supportedArch_In in Hsup; contradiction|].
    cbn. repeat split; try reflexivity;
      intros; intros [H|[]]; discriminate.
Qed.

(** *** Loading the configuration *)

(** C6. A configuration that cannot be loaded does not end the run: the
    version is the compiled-in default and the mirror is empty, and the
    run is, event for event, the run of a world where the load gave a
    configuration with these two values, so the failure itself leaves no
    trace; when the load succeeds the version and the mirror are those
    of the configuration, and a local run on a supported architecture
    starts by calling the locator with them (the default version standing
    in for an empty one, as [KubectlCommand] does). *)
Theorem Run_config_fallback (w : World) (args : list string) :
  let loaded := config_Load w (ClusterFlagValue w) in
  (forall e : error,
      loaded = Err e ->
      versionAndMirror loaded = (DefaultKubernetesVersion, "")
      /\ forall name : string,
          Run GuestPersistentDir w args =
            Run GuestPersistentDir
              (with_config_Load w
                 (Ok {| Name := name;
                        KubernetesVersion := DefaultKubernetesVersion;
                        BinaryMirror := "" |})) args)
  /\ (forall cc : ClusterConfig,
         loaded = Ok cc ->
         versionAndMirror loaded = (KubernetesVersion cc, BinaryMirror cc)
         /\ (useSSH w = false ->
             In (detect_RuntimeArch w) SupportedArchitectures ->
             hd_error (trace (Run GuestPersistentDir w args))
                = Some (CacheKubectlBinary_call
                          (locatorVersion (KubernetesVersion cc))
                          (BinaryMirror cc)))).
Proof.
  cbv zeta. split.
  - intros e He. split; [now rewrite He|].
    intros name. unfold Run. cbn. rewrite He. reflexivity.
  - intros cc Hcc. split; [now rewrite Hcc|].
    intros Hlocal Hin. apply supportedArch_In in Hin.
    rewrite (Run_local w args Hlocal). cbv zeta. rewrite Hin, Hcc. cbn.
    destruct (node_CacheKubectlBinary w _ _); reflexivity.
Qed.

(** *** [KubectlCommand] *)

(** C7. With an empty version [KubectlCommand] does what it does with the
    compiled-in default version, whatever the mirror and the arguments:
    the locator is called once, with the default version and the mirror;
    its error is returned as it is; and from its path [p] the command is
    [exec.Command(p, args...)], whose argument vector is [p] followed by
    the arguments unchanged and whose path is [p] (a path with a
    directory is not looked up). *)
Theorem KubectlCommand_empty_version (w : World) (binaryURL : string)
    (args : list string) :
  KubectlCommand w "" binaryURL args
  = KubectlCommand w DefaultKubernetesVersion binaryURL args
  /\ trace (KubectlCommand w "" binaryURL args)
     = [CacheKubectlBinary_call DefaultKubernetesVersion binaryURL]
  /\ (forall e : error,
         node_CacheKubectlBinary w DefaultKubernetesVersion binaryURL = Err e ->
         snd (KubectlCommand w "" binaryURL args) = Done (Err e))
  /\ (forall p : string,
         node_CacheKubectlBinary w DefaultKubernetesVersion binaryURL = Ok p ->
         snd (KubectlCommand w "" binaryURL args)
         = Done (Ok (exec_Command w p args))
         /\ exec.Args (exec_Command w p args) = p :: args
         /\ (filepath.Base p <> p ->
             exec.Path (exec_Command w p args) = p)).
Proof.
  assert (Hv : (if String.eqb DefaultKubernetesVersion ""
                then DefaultKubernetesVersion else DefaultKubernetesVersion)
               = DefaultKubernetesVersion)
    by (destruct (String.eqb _ _); reflexivity).
  unfold KubectlCommand. cbn. rewrite Hv.
  split; [reflexivity|].
  split; [destruct (node_CacheKubectlBinary w _ _); reflexivity|].
  split.
  - intros e ->. reflexivity.
  - intros p ->. split; [reflexivity|]. split.
    + apply exec_Command_Args.
    + apply exec_Command_Path.
Qed.

(** *** A binary that cannot be cached *)

(** C8. In local mode, when the locator is called and gives an error
    instead of a path, the run is: the call of the locator, the
    diagnostic [Error caching kubectl] with that error, and the exit with
    status 1; no child is started. *)
Theorem Run_binary_unavailable (w : World) (args : list string)
    (version mirror : string) (e : error) :
  useSSH w = false ->
  In (CacheKubectlBinary_call version mirror)
     (trace (Run GuestPersistentDir w args)) ->
  node_CacheKubectlBinary w version mirror = Err e ->
  Run GuestPersistentDir w args
  = ([CacheKubectlBinary_call version mirror;
      out_ErrLn "Error caching kubectl: %v" e], Exit 1)
  /\ exit_status (Run GuestPersistentDir w args) = 1
  /\ (forall c, ~ In (Cmd_Run_call c) (trace (Run GuestPersistentDir w args))).
Proof.
  intros Hlocal Hin Herr.
  assert (Hrun : Run GuestPersistentDir w args
                 = ([CacheKubectlBinary_call version mirror;
                     out_ErrLn "Error caching kubectl: %v" e], Exit 1)).
  { rewrite (Run_local w args Hlocal) in *. cbv zeta in *.
    destruct (supportedArch _ _).
    - destruct (node_CacheKubectlBinary w _ _) as [p|e'] eqn:Hloc.
      + cbn in Hin. destruct Hin as [H|[H|[H|H]]]; try discriminate.
        * injection H as <- <-. congruence.
        * apply exitWith_events in H. destruct H as [text H]. discriminate.
      + cbn in Hin. destruct Hin as [H|[H|[]]]; try discriminate.
        injection H as <- <-. congruence.
    - cbn in Hin. destruct Hin as [H|[]]; discriminate. }
  rewrite Hrun. repeat split.
  intros c [H|[H|[]]]; discriminate.
Qed.

(** *** The exit status of the child *)


(** *** The completion proxy *)

Lemma last_map_candidate (ls : list string) :
  last (map candidate ls) EmptyString = candidate (last ls EmptyString).
Proof.
  induction ls as [|l ls IH]; [reflexivity|].
  destruct ls as [|l' ls]; [reflexivity|]. exact IH.
Qed.

Lemma removelast_map_candidate (ls : list string) :
  removelast (map candidate ls) = map candidate (removelast ls).
Proof.
  induction ls as [|l ls IH]; [reflexivity|].
  destruct ls as [|l' ls]; [reflexivity|].
  cbn [map removelast] in *. now rewrite IH.
Qed.

(** A scan that ends without an error has read the lines of the text. *)
Lemma scan_from_lines (data : string) :
  forall (cur : list ascii) (n : N) (tokens : list string),
    bufio.scan_from data cur n = (tokens, None) ->
    tokens = bufio.lines_from data cur.
Proof.
  induction data as [|c rest IH]; intros cur n tokens; cbn.
  - destruct cur; now intros [= <-].
  - destruct (Ascii.eqb c _).
    + destruct (bufio.scan_from rest [] 0%N) as [ts e] eqn:Hrest.
      cbn. intros [= <- ->]. f_equal. eapply IH, Hrest.
    + destruct (N.leb _ _); [discriminate|]. apply IH.
Qed.

Lemma Scanner_lines (data : string) (tokens : list string) :
  bufio.Scanner data = (tokens, None) -> tokens = bufio.lines data.
Proof. apply scan_from_lines. Qed.

(** A text shorter than the buffer of the scanner is scanned without an
    error. *)
Lemma scan_from_short (data : string) :
  forall (cur : list ascii) (n : N),
    (n + N.of_nat (String.length data) < bufio.MaxScanTokenSize)%N ->
    snd (bufio.scan_from data cur n) = None.
Proof.
  induction data as [|c rest IH]; intros cur n Hlen; cbn.
  - now destruct cur.
  - cbn [String.length] in Hlen.
    destruct (Ascii.eqb c _).
    + specialize (IH [] 0%N).
      destruct (bufio.scan_from rest [] 0%N) as [ts e]. cbn in *.
      apply IH. lia.
    + destruct (N.leb_spec bufio.MaxScanTokenSize (n + 1)); [lia|].
      apply IH. lia.
Qed.

Lemma Scanner_short (data : string) :
  (N.of_nat (String.length data) < bufio.MaxScanTokenSize)%N ->
  bufio.Scanner data = (bufio.lines data, None).
Proof.
  intros Hlen. unfold bufio.Scanner.
  pose proof (scan_from_short data [] 0%N Hlen) as Herr.
  destruct (bufio.scan_from data [] 0%N) as [ts e] eqn:Hscan.
  cbn in Herr. subst e. f_equal. now apply scan_from_lines in Hscan.
Qed.

(** What [ValidArgsFunction] returns, by the answer of the embedded
    command and of the scanner. *)
Lemma ValidArgsFunction_cases (w : World) (args : list string)
    (toComplete : string) (err : option error) (out : string) :
  kubectl_Execute w (cobra.ShellCompRequestCmd :: args ++ [toComplete])%list
  = (err, out) ->
  ValidArgsFunction w args toComplete =
    match err, snd (bufio.Scanner out), bufio.lines out with
    | Some _, _, _ | _, Some _, _ | _, _, [] =>
        (None, cobra.ShellCompDirectiveError)
    | None, None, (_ :: _) as ls =>
        match directiveOf (last ls EmptyString) with
        | Err _ => (None, cobra.ShellCompDirectiveError)
        | Ok directive => (Some (map candidate (removelast ls)), directive)
        end
    end.
Proof.
  intros Hexec. unfold ValidArgsFunction. cbn [app]. rewrite Hexec.
  destruct err as [e|]; [reflexivity|].
  destruct (bufio.Scanner out) as [tokens scanErr] eqn:Hscan. cbn [snd].
  destruct scanErr as [e|].
  - now destruct (map candidate tokens).
  - apply Scanner_lines in Hscan. subst tokens.
    destruct (bufio.lines out) as [|l ls] eqn:Hls; [reflexivity|].
    cbn [map]. rewrite <- (map_cons candidate l ls).
    rewrite last_map_candidate, removelast_map_candidate.
    reflexivity.
Qed.

(** *** Decimal integers *)

Ltac digit_cases d :=
  let H := fresh "Hd" in
  assert (H : d = 0 \/ d = 1 \/ d = 2 \/ d = 3 \/ d = 4 \/ d = 5 \/ d = 6
              \/ d = 7 \/ d = 8 \/ d = 9) by lia;
  repeat (destruct H as [->|H]); [..|subst d].

Lemma digit_of_digit_char (d : Z) :
  0 <= d < 10 -> strconv.digit_of (strconv.digit_char d) = Some d.
Proof. intros Hd. digit_cases d; reflexivity. Qed.

(** A digit is no sign, no colon and no tab. *)
Lemma digit_char_plain (d : Z) (c : ascii) :
  0 <= d < 10 -> In c ["-"; "+"; ":"; tab]%char ->
  Ascii.eqb (strconv.digit_char d) c = false.
Proof.
  intros Hd Hc. cbn in Hc.
  destruct Hc as [<-|[<-|[<-|[<-|[]]]]]; digit_cases d; reflexivity.
Qed.

(** Reading the digits that [format_loop] wrote in front of [a] shifts
    the value read so far and adds [u]. *)
Lemma digits_format_loop (fuel : nat) :
  forall (u : Z) (a : string),
    0 <= u < 10 ^ Z.of_nat fuel ->
    exists k, forall v,
      strconv.digits (strconv.format_loop fuel u a) v
      = strconv.digits a (v * k + u).
Proof.
  induction fuel as [|fuel IH]; intros u a Hu.
  - exists 1. intros v. cbn in *. f_equal. lia.
  - rewrite Nat2Z.inj_succ, Z.pow_succ_r in Hu by lia.
    cbn [strconv.format_loop]. destruct (Z.ltb_spec u 10) as [Hlt|Hge].
    + exists 10. intros v. cbn [strconv.digits].
      now rewrite digit_of_digit_char by lia.
    + destruct (IH (u / 10) (String (strconv.digit_char (u mod 10)) a))
        as [k Hk].
      { split; [apply Z.div_pos; lia|].
        apply Z.div_lt_upper_bound; lia. }
      exists (k * 10). intros v. rewrite Hk. cbn [strconv.digits].
      rewrite digit_of_digit_char by (apply Z.mod_pos_bound; lia).
      f_equal. pose proof (Z.div_mod u 10). lia.
Qed.

Lemma format_loop_head (fuel : nat) :
  forall (u : Z) (a : string),
    0 <= u -> fuel <> O \/ starts_with_digit a ->
    starts_with_digit (strconv.format_loop fuel u a).
Proof.
  induction fuel as [|fuel IH]; intros u a Hu Hstart.
  - destruct Hstart as [H|H]; [congruence | exact H].
  - cbn [strconv.format_loop]. destruct (Z.ltb_spec u 10) as [Hlt|Hge].
    + exists u, a. split; [lia | reflexivity].
    + apply IH; [apply Z.div_pos; lia|]. right.
      exists (u mod 10), a. split; [apply Z.mod_pos_bound; lia | reflexivity].
Qed.

Lemma format_loop_all (P : ascii -> bool) (fuel : nat) :
  (forall d, 0 <= d < 10 -> P (strconv.digit_char d) = true) ->
  forall (u : Z) (a : string),
    0 <= u -> bytes_all P a = true ->
    bytes_all P (strconv.format_loop fuel u a) = true.
Proof.
  intros HP. induction fuel as [|fuel IH]; intros u a Hu Ha; [exact Ha|].
  cbn [strconv.format_loop]. destruct (Z.ltb_spec u 10) as [Hlt|Hge].
  - cbn. rewrite HP by lia. exact Ha.
  - apply IH; [apply Z.div_pos; lia|]. cbn.
    rewrite HP by (apply Z.mod_pos_bound; lia). exact Ha.
Qed.

(** [Atoi] reads back what [Itoa] writes, for every value of an [int]. *)
Lemma Atoi_Itoa (n : Z) :
  strconv.MinInt <= n <= strconv.MaxInt ->
  strconv.Atoi (strconv.Itoa n) = Ok n.
Proof.
  intros Hn.
  assert (Hmin : strconv.MinInt = - 9223372036854775808) by reflexivity.
  assert (Hmax : strconv.MaxInt = 9223372036854775807) by reflexivity.
  assert (Hrange : (strconv.MinInt <=? n) && (n <=? strconv.MaxInt) = true)
    by (apply andb_true_intro; split; apply Z.leb_le; lia).
  unfold strconv.Itoa. destruct (Z.ltb_spec n 0) as [Hneg|Hpos].
  - destruct (digits_format_loop 20 (- n) EmptyString) as [k Hk].
    { change (10 ^ Z.of_nat 20) with 100000000000000000000. lia. }
    destruct (format_loop_head 20 (- n) EmptyString)
      as (d & rest & Hd & Hhead); [lia | left; discriminate |].
    unfold strconv.Atoi. cbn [Ascii.eqb Bool.eqb].
    rewrite Hk. rewrite Hhead. cbn [strconv.digits].
    replace (- (0 * k + - n)) with n by lia. now rewrite Hrange.
  - destruct (digits_format_loop 20 n EmptyString) as [k Hk].
    { change (10 ^ Z.of_nat 20) with 100000000000000000000. lia. }
    destruct (format_loop_head 20 n EmptyString)
      as (d & rest & Hd & Hhead); [lia | left; discriminate |].
    unfold strconv.Atoi. rewrite Hk. rewrite Hhead.
    rewrite !(digit_char_plain d _ Hd) by (cbn; auto).
    cbn [strconv.digits]. replace (0 * k + n) with n by lia.
    now rewrite Hrange.
Qed.

(** *** Candidates *)

(** A text without a tab is its own candidate. *)
Lemma candidate_plain (s : string) :
  bytes_all (fun c => negb (Ascii.eqb c tab)) s = true -> candidate s = s.
Proof.
  unfold candidate.
  assert (H : bytes_all (fun c => negb (Ascii.eqb c tab)) s = true ->
              strings.Split s tab = [s]).
  { induction s as [|c s IH]; [reflexivity|].
    cbn [strings.Split bytes_all].
    intros Hall. apply andb_prop in Hall. destruct Hall as [Hc Hs].
    apply negb_true_iff in Hc. rewrite Hc, (IH Hs). reflexivity. }
  intros Hall. now rewrite (H Hall).
Qed.

(** The candidate of a line has no tab, and the line is the candidate,
    alone or followed by a tab and a description. *)
Lemma candidate_strips (line : string) :
  bytes_all (fun c => negb (Ascii.eqb c tab)) (candidate line) = true
  /\ (line = candidate line
      \/ exists description,
          line = candidate line ++ String tab description).
Proof.
  unfold candidate. induction line as [|c line [IHtab IHline]].
  - cbn. auto.
  - cbn [strings.Split]. destruct (Ascii.eqb_spec c tab) as [->|Hc].
    + cbn [hd bytes_all append]. split; [reflexivity|]. right. now exists line.
    + apply Ascii.eqb_neq in Hc.
      destruct (strings.Split line tab) as [|piece pieces];
        cbn [hd bytes_all] in *; rewrite Hc; cbn [negb andb].
      * split; [reflexivity|].
        destruct IHline as [->|[description ->]]; [now left|].
        right. now exists description.
      * split; [exact IHtab|].
        destruct IHline as [H|[description H]];
          [left | right; exists description]; rewrite H at 1; reflexivity.
Qed.

Lemma Itoa_plain (n : Z) :
  bytes_all (fun c => negb (Ascii.eqb c tab)) (strconv.Itoa n) = true.
Proof.
  assert (Hdigit : forall d, 0 <= d < 10 ->
            negb (Ascii.eqb (strconv.digit_char d) tab) = true).
  { intros d Hd. rewrite (digit_char_plain d tab Hd) by (cbn; auto).
    reflexivity. }
  unfold strconv.Itoa. destruct (Z.ltb_spec n 0).
  - cbn [bytes_all]. rewrite format_loop_all; auto. lia.
  - apply format_loop_all; auto.
Qed.

(** C10. The directive of a final line is read with or without the
    leading colon: for every value [n] of an [int], the lines [:n] and
    [n] ([n] in decimal) both give the directive [n], since the colon is
    cut only when it is there; and a scanned output that ends with such
    a line gives the candidates of the lines before it and the directive
    [n]. *)
Theorem directive_colon_optional (n : Z) :
  strconv.MinInt <= n <= strconv.MaxInt ->
  directiveOf (":" ++ strconv.Itoa n) = Ok n
  /\ directiveOf (strconv.Itoa n) = Ok n
  /\ strings.TrimPrefix (":" ++ strconv.Itoa n) ":" = strconv.Itoa n
  /\ strings.TrimPrefix (strconv.Itoa n) ":" = strconv.Itoa n
  /\ (forall (w : World) (args : list string) (toComplete out : string)
        (before : list string) (final : string),
        kubectl_Execute w
          (cobra.ShellCompRequestCmd :: args ++ [toComplete])%list
        = (None, out) ->
        bufio.Scanner out = ((before ++ [final])%list, None) ->
        final = ":" ++ strconv.Itoa n \/ final = strconv.Itoa n ->
        ValidArgsFunction w args toComplete
        = (Some (map candidate before), n)).
Proof.
  intros Hn.
  assert (Hbare : strings.TrimPrefix (strconv.Itoa n) ":" = strconv.Itoa n).
  { unfold strings.TrimPrefix, strconv.Itoa.
    destruct (Z.ltb_spec n 0); [reflexivity|].
    destruct (format_loop_head 20 n EmptyString)
      as (d & rest & Hd & ->); [lia | left; discriminate |].
    cbn [strings.HasPrefix]. rewrite (digit_char_plain d ":" Hd) by (cbn; auto).
    reflexivity. }
  assert (Hcolon : directiveOf (":" ++ strconv.Itoa n) = Ok n).
  { unfold directiveOf. rewrite candidate_plain.
    - change (strings.TrimPrefix (":" ++ strconv.Itoa n) ":")
        with (strconv.Itoa n).
      now apply Atoi_Itoa.
    - cbn [append bytes_all]. now rewrite Itoa_plain. }
  assert (Hplain : directiveOf (strconv.Itoa n) = Ok n).
  { unfold directiveOf. rewrite candidate_plain by apply Itoa_plain.
    rewrite Hbare. now apply Atoi_Itoa. }
  repeat split; auto.
  intros w args toComplete out before final Hexec Hscan Hfinal.
  rewrite (ValidArgsFunction_cases w args toComplete None out Hexec).
  rewrite Hscan. cbn [snd]. apply Scanner_lines in Hscan. rewrite <- Hscan.
  assert (Hdir : directiveOf final = Ok n)
    by (destruct Hfinal as [->| ->]; assumption).
  destruct (before ++ [final])%list as [|l ls] eqn:Hls;
    [destruct before; discriminate|].
  rewrite <- Hls, last_last, removelast_last, Hdir. reflexivity.
Qed.

(** C9. When the embedded command succeeds and the scanner reads exactly
    one line from its output, and that line is a directive, the proxy
    returns an empty list of candidates (not [nil]) with that directive:
    this is not the return of a completion error, which an output of no
    line gets, and the directive returned is the error directive only
    when the line itself says so. *)
Theorem ValidArgsFunction_directive_only (w : World) (args : list string)
    (toComplete out line : string) (directive : Z) :
  kubectl_Execute w (cobra.ShellCompRequestCmd :: args ++ [toComplete])%list
  = (None, out) ->
  bufio.Scanner out = ([line], None) ->
  directiveOf line = Ok directive ->
  ValidArgsFunction w args toComplete = (Some [], directive)
  /\ ValidArgsFunction w args toComplete
     <> (None, cobra.ShellCompDirectiveError)
  /\ (snd (ValidArgsFunction w args toComplete)
      = cobra.ShellCompDirectiveError ->
      directive = cobra.ShellCompDirectiveError).
Proof.
  intros Hexec Hscan Hdir.
  rewrite (ValidArgsFunction_cases w args toComplete None out Hexec).
  rewrite Hscan. cbn [snd]. apply Scanner_lines in Hscan. rewrite <- Hscan.
  cbn [last removelast map]. rewrite Hdir.
  split; [reflexivity|]. split; [discriminate|]. cbn [snd]. auto.
Qed.

(** C4, as the code has it. For every completion request: when the
    embedded command fails, or the scanner ends with an error (a line of
    [bufio.MaxScanTokenSize] bytes or more), or the output has no line,
    or its last line is no directive, the proxy returns [nil] and the
    error directive; otherwise it returns the lines but the last, each cut
    at its first tab, in their order, and the directive of the last line.
    Without a scanner error, which an output shorter than the buffer
    never gives, this is the proxy as the specification words it. *)
Theorem ValidArgsFunction_completion (w : World) (args : list string)
    (toComplete : string) (err : option error) (out : string) :
  kubectl_Execute w (cobra.ShellCompRequestCmd :: args ++ [toComplete])%list
  = (err, out) ->
  ((err <> None \/ snd (bufio.Scanner out) <> None \/ bufio.lines out = []
    \/ (exists e, directiveOf (last (bufio.lines out) EmptyString) = Err e)) ->
   ValidArgsFunction w args toComplete = (None, cobra.ShellCompDirectiveError))
  /\ (forall directive : Z,
         err = None -> snd (bufio.Scanner out) = None ->
         bufio.lines out <> [] ->
         directiveOf (last (bufio.lines out) EmptyString) = Ok directive ->
         ValidArgsFunction w args toComplete
         = (Some (map candidate (removelast (bufio.lines out))), directive))
  /\ (snd (bufio.Scanner out) = None ->
      ValidArgsFunction w args toComplete
      = completion_by_lines w args toComplete)
  /\ ((N.of_nat (String.length out) < bufio.MaxScanTokenSize)%N ->
      snd (bufio.Scanner out) = None).
Proof.
  intros Hexec.
  rewrite (ValidArgsFunction_cases w args toComplete err out Hexec).
  repeat split.
  - intros [Herr|[Hscan|[Hlines|[e Hdir]]]].
    + destruct err; [reflexivity | congruence].
    + destruct err, (snd (bufio.Scanner out)); try reflexivity; congruence.
    + rewrite Hlines. now destruct err, (snd (bufio.Scanner out)).
    + destruct err, (snd (bufio.Scanner out)); try reflexivity.
      destruct (bufio.lines out) as [|l ls] eqn:Hls; [reflexivity|].
      cbv zeta. now rewrite Hdir.
  - intros directive -> -> Hlines Hdir.
    destruct (bufio.lines out) as [|l ls] eqn:Hls; [congruence|].
    cbv zeta. now rewrite Hdir.
  - intros ->. unfold completion_by_lines. cbn [app]. rewrite Hexec.
    destruct err; reflexivity.
  - intros Hlen. now rewrite (Scanner_short out Hlen).
Qed.

(** *** The remote mode *)

(** Every remote run has one of three shapes. *)
Lemma Run_remote (w : World) (args : list string) :
  useSSH w = true ->
  Run GuestPersistentDir w args =
    let cname := ClusterFlagValue w in
    match mustload_Running w cname with
    | inr rc => ([mustload_Running_call cname], Exit rc)
    | inl co =>
        let a := remoteArgs (Config co) args in
        let opened :=
          [mustload_Running_call cname;
           klog_Infof ("Running SSH " ++ fmt_v a);
           CreateSSHShell_call (API co) (Config co) (CPNode co) a false] in
        match machine_CreateSSHShell w (API co) (Config co) (CPNode co) a with
        | Some err =>
            ((opened ++ [Fprintf_Stderr ("Error running kubectl: " ++ err)])
               %list, Exit 1)
        | None => (opened, Done tt)
        end
    end.
Proof.
  intros Hssh. unfold Run. destruct (versionAndMirror _) as [v m].
  rewrite Hssh. cbn.
  destruct (mustload_Running w _) as [co|rc]; cbn; [|reflexivity].
  destruct (machine_CreateSSHShell w _ _ _ _); reflexivity.
Qed.

(** X1. In remote mode the exit status of kubectl on the node is not
    passed on: once the cluster is found running, the run returns (status
    0) when the remote shell gives no error, and for any error it prints
    [Error running kubectl: <error>] as its last event and exits with
    status 1; when [mustload] ends the process, its call is the only
    event and its status is the status of the run. *)
Theorem Run_remote_outcome (w : World) (args : list string) :
  useSSH w = true ->
  (forall co : ClusterController,
      mustload_Running w (ClusterFlagValue w) = inl co ->
      let answer :=
        machine_CreateSSHShell w (API co) (Config co) (CPNode co)
          (remoteArgs (Config co) args) in
      (exit_status (Run GuestPersistentDir w args) = 0
       \/ exit_status (Run GuestPersistentDir w args) = 1)
      /\ (answer = None <-> snd (Run GuestPersistentDir w args) = Done tt)
      /\ (answer = None ->
          count isDiagnostic (trace (Run GuestPersistentDir w args)) = 0%nat)
      /\ (forall err : error,
             answer = Some err ->
             snd (Run GuestPersistentDir w args) = Exit 1
             /\ last (trace (Run GuestPersistentDir w args))
                  (klog_Infof "")
                = Fprintf_Stderr ("Error running kubectl: " ++ err)))
  /\ (forall rc : Z,
         mustload_Running w (ClusterFlagValue w) = inr rc ->
         Run GuestPersistentDir w args
         = ([mustload_Running_call (ClusterFlagValue w)], Exit rc)).
Proof.
  intros Hssh. rewrite (Run_remote w args Hssh). cbv zeta. split.
  - intros co ->.
    destruct (machine_CreateSSHShell w _ _ _ _) as [err|];
      unfold exit_status, trace; cbn [fst snd].
    + split; [now right|]. split; [split; discriminate|].
      split; [discriminate|]. intros err' [= <-]. split; reflexivity.
    + split; [now left|]. split; [split; reflexivity|].
      split; [reflexivity|]. discriminate.
  - intros rc ->. reflexivity.
Qed.

(** X2. The two modes do not mix: a remote run never calls the locator,
    never starts a local child and prints nothing through [out.ErrLn];
    a local run never calls [mustload.Running] and never opens a remote
    shell. *)
Theorem Run_mode_separation (w : World) (args : list string) :
  (useSSH w = true ->
   count isLocalEvent (trace (Run GuestPersistentDir w args)) = 0%nat)
  /\ (useSSH w = false ->
      count isRemoteEvent (trace (Run GuestPersistentDir w args)) = 0%nat).
Proof.
  split; intros Hmode.
  - rewrite (Run_remote w args Hmode). cbv zeta.
    destruct (mustload_Running w _) as [co|rc]; [|reflexivity].
    destruct (machine_CreateSSHShell w _ _ _ _); reflexivity.
  - rewrite (Run_local w args Hmode). cbv zeta.
    destruct (supportedArch _ _); [|reflexivity].
    destruct (node_CacheKubectlBinary w _ _) as [p|e]; [|reflexivity].
    unfold count, trace. cbn [fst filter isRemoteEvent].
    destruct (Cmd_Run_error w _) as [[status|e]|]; reflexivity.
Qed.

(** X3. A remote run depends on nothing of the local machine: whatever
    [config.Load] answers, whatever the architecture of the host, the
    answer of the locator or the end of a local child would be, the run
    is the same. *)
Theorem Run_remote_independent (w : World) (args : list string)
    (loaded : result ClusterConfig) (arch : string)
    (locator : string -> string -> result string)
    (ending : exec.ChildEnd) :
  useSSH w = true ->
  Run GuestPersistentDir (with_config_Load w loaded) args
  = Run GuestPersistentDir w args
  /\ Run GuestPersistentDir (with_RuntimeArch w arch) args
     = Run GuestPersistentDir w args
  /\ Run GuestPersistentDir (with_CacheKubectlBinary w locator) args
     = Run GuestPersistentDir w args
  /\ Run GuestPersistentDir (with_child w ending) args
     = Run GuestPersistentDir w args.
Proof.
  intros Hssh.
  rewrite (Run_remote w args Hssh).
  rewrite (Run_remote (with_config_Load w loaded) args Hssh).
  rewrite (Run_remote (with_RuntimeArch w arch) args Hssh).
  rewrite (Run_remote (with_CacheKubectlBinary w locator) args Hssh).
  rewrite (Run_remote (with_child w ending) args Hssh).
  repeat split; reflexivity.
Qed.

(** X4. No run executes kubectl twice: over a whole run at most one
    local child is started or remote shell opened, and the locator is
    called at most once. *)
Theorem Run_single_execution (w : World) (args : list string) :
  (count isExecution (trace (Run GuestPersistentDir w args)) <= 1)%nat
  /\ (count isLocatorCall (trace (Run GuestPersistentDir w args)) <= 1)%nat.
Proof.
  destruct (useSSH w) eqn:Hmode.
  - rewrite (Run_remote w args Hmode). cbv zeta.
    destruct (mustload_Running w _) as [co|rc]; [|cbn; lia].
    destruct (machine_CreateSSHShell w _ _ _ _); cbn; lia.
  - rewrite (Run_local w args Hmode). cbv zeta.
    destruct (supportedArch _ _); [|cbn; lia].
    destruct (node_CacheKubectlBinary w _ _) as [p|e]; [|cbn; lia].
    unfold count, trace. cbn [fst filter isExecution isLocatorCall].
    destruct (Cmd_Run_error w _) as [[status|e]|]; cbn; lia.
Qed.

(** *** The local child *)

Lemma ExitStatus_range (status : syscall.WaitStatus) :
  -1 <= syscall.ExitStatus status <= 255.
Proof.
  unfold syscall.ExitStatus. destruct (negb (syscall.Exited status)); [lia|].
  assert (H : Z.land (Z.shiftr status 8) 255 = Z.shiftr status 8 mod 2 ^ 8)
    by (change 255 with (Z.ones 8); apply Z.land_ones; lia).
  rewrite H. pose proof (Z.mod_pos_bound (Z.shiftr status 8) (2 ^ 8)). lia.
Qed.

(** [c.Run()] gives an [*exec.ExitError] only for a status that is not a
    success, so its exit status is never 0. *)
Lemma Cmd_Run_error_ExitError (w : World) (c : exec.Cmd)
    (status : syscall.WaitStatus) :
  Cmd_Run_error w c = Some (exec.ExitError status) ->
  syscall.ExitStatus status <> 0.
Proof.
  unfold Cmd_Run_error. destruct (exec.LookErr c); [discriminate|].
  destruct (child w c) as [status'|e]; [|discriminate].
  destruct (exec.Success status') eqn:Hsuccess; [discriminate|].
  intros [= <-]. unfold exec.Success in Hsuccess.
  unfold syscall.ExitStatus in *.
  destruct (syscall.Exited status'); cbn [negb andb] in *; [|lia].
  now apply Z.eqb_neq in Hsuccess.
Qed.

Lemma localArgs_suffix (cname : string) (args : list string) :
  exists pre : list string,
    localArgs cname args = (pre ++ args)%list
    /\ (pre = [] \/ pre = ["--cluster"; cname]).
Proof.
  unfold localArgs. destruct (_ && _).
  - exists ["--cluster"; cname]. auto.
  - exists []. auto.
Qed.

(** X5. The child of a local run is the binary the locator answered on a
    supported architecture: its argument vector is that path followed by
    the local arguments, its three standard streams are those of the
    parent, and the run has logged its start. *)
Theorem Run_local_child (w : World) (args : list string) (c : exec.Cmd) :
  useSSH w = false ->
  In (Cmd_Run_call c) (trace (Run GuestPersistentDir w args)) ->
  exec.Stdin c = Some os.Stdin
  /\ exec.Stdout c = Some os.Stdout
  /\ exec.Stderr c = Some os.Stderr
  /\ In (detect_RuntimeArch w) SupportedArchitectures
  /\ In (klog_Infof ("Running " ++ exec.Path c ++ " "
                       ++ fmt_v (localArgs (ClusterFlagValue w) args)))
        (trace (Run GuestPersistentDir w args))
  /\ exists p : string,
      node_CacheKubectlBinary w
        (locatorVersion
           (fst (versionAndMirror (config_Load w (ClusterFlagValue w)))))
        (snd (versionAndMirror (config_Load w (ClusterFlagValue w))))
      = Ok p
      /\ exec.Args c = p :: localArgs (ClusterFlagValue w) args.
Proof.
  intros Hlocal Hin.
  destruct (Run_local_spawned w args c Hlocal Hin)
    as (p & Hsup & Hloc & Hc & Hrun).
  rewrite Hrun. subst c. cbn [inheritStdio exec.Stdin exec.Stdout exec.Stderr].
  repeat split.
  - now apply supportedArch_In.
  - right. left. reflexivity.
  - exists p. split; [exact Hloc|]. cbn [exec.Args].
    apply exec_Command_Args.
Qed.

(** X6. Whenever the child of a local run was waited for, whatever its
    wait status, the status of the run is [ExitStatus()] of that wait
    status, a number from -1 to 255, and the run prints nothing of its
    own; for a child that did not exit by itself (a signal killed it)
    this is [os.Exit(-1)]. *)
Theorem Run_waited_child (w : World) (args : list string) (c : exec.Cmd)
    (status : syscall.WaitStatus) :
  useSSH w = false ->
  In (Cmd_Run_call c) (trace (Run GuestPersistentDir w args)) ->
  exec.LookErr c = None ->
  child w c = exec.Waited status ->
  exit_status (Run GuestPersistentDir w args) = syscall.ExitStatus status
  /\ -1 <= exit_status (Run GuestPersistentDir w args) <= 255
  /\ count isDiagnostic (trace (Run GuestPersistentDir w args)) = 0%nat
  /\ (syscall.Exited status = false ->
      snd (Run GuestPersistentDir w args) = Exit (-1)).
Proof.
  intros Hlocal Hin Hlook Hchild.
  destruct (Run_local_spawned w args c Hlocal Hin) as (p & _ & _ & _ & Hrun).
  rewrite Hrun. unfold exit_status, trace, count. cbn [fst snd].
  unfold Cmd_Run_error. rewrite Hlook, Hchild.
  pose proof (ExitStatus_range status) as Hrange.
  assert (Hkilled : syscall.Exited status = false ->
                    syscall.ExitStatus status = -1)
    by (intros H; unfold syscall.ExitStatus; now rewrite H).
  unfold exec.Success.
  destruct (syscall.Exited status) eqn:Hexited; cbn [andb].
  - destruct (Z.eqb_spec (syscall.ExitStatus status) 0) as [Hzero|Hnz];
      cbn [exitWith bind ret os_Exit fst snd app filter isDiagnostic length].
    + repeat split; try lia; discriminate.
    + repeat split; try lia; discriminate.
  - cbn [exitWith bind ret os_Exit fst snd app filter isDiagnostic length].
    rewrite (Hkilled eq_refl). repeat split; lia.
Qed.

(** X7. A local run never calls [os.Exit(0)]: it ends by returning, or
    with a status from -1 to 255 that is not 0 (1 for its own failures,
    the exit status of the child otherwise). *)
Theorem Run_local_exit_nonzero (w : World) (args : list string) :
  useSSH w = false ->
  snd (Run GuestPersistentDir w args) <> Exit 0
  /\ -1 <= exit_status (Run GuestPersistentDir w args) <= 255.
Proof.
  intros Hlocal. rewrite (Run_local w args Hlocal). cbv zeta.
  unfold exit_status.
  destruct (supportedArch _ _); [|cbn; split; [discriminate | lia]].
  destruct (node_CacheKubectlBinary w _ _) as [p|e];
    [|cbn; split; [discriminate | lia]].
  cbn [snd].
  destruct (Cmd_Run_error w _) as [[status|e]|] eqn:Herr;
    cbn [exitWith bind ret os_Exit emit fst snd].
  - apply Cmd_Run_error_ExitError in Herr.
    pose proof (ExitStatus_range status). split; [congruence | lia].
  - split; [discriminate | lia].
  - split; [discriminate | lia].
Qed.

(** X8. Whatever the mode, the arguments of the user reach kubectl in
    full and in their order, as the end of its arguments: a local child
    gets them after nothing or after [--cluster <name>]; a remote shell,
    which is opened on the control plane node of the running cluster and
    never with the native client, gets them after [sudo], the path of
    kubectl, [--kubeconfig] and the path of the kubeconfig. *)
Theorem Run_arguments_passed_on (w : World) (args : list string) :
  (forall c : exec.Cmd,
      In (Cmd_Run_call c) (trace (Run GuestPersistentDir w args)) ->
      exists pre : list string,
        tl (exec.Args c) = (pre ++ args)%list
        /\ (pre = [] \/ pre = ["--cluster"; ClusterFlagValue w]))
  /\ (forall (api : string) (cc : ClusterConfig) (n : Node)
        (a : list string) (native : bool),
        In (CreateSSHShell_call api cc n a native)
           (trace (Run GuestPersistentDir w args)) ->
        native = false
        /\ a = (["sudo"; kubectlPath cc; "--kubeconfig"; kubeconfigPath]
                  ++ args)%list
        /\ exists co : ClusterController,
            mustload_Running w (ClusterFlagValue w) = inl co
            /\ api = API co /\ cc = Config co /\ n = CPNode co).
Proof.
  destruct (useSSH w) eqn:Hmode; split.
  - intros c Hin. rewrite (Run_remote w args Hmode) in Hin. cbv zeta in Hin.
    destruct (mustload_Running w _) as [co|rc];
      [|destruct Hin as [H|[]]; discriminate].
    destruct (machine_CreateSSHShell w _ _ _ _); cbn in Hin;
      repeat (destruct Hin as [Hin|Hin]; [discriminate|]); contradiction.
  - intros api cc n a native Hin.
    rewrite (Run_remote w args Hmode) in Hin. cbv zeta in Hin.
    destruct (mustload_Running w _) as [co|rc] eqn:Hco;
      [|destruct Hin as [H|[]]; discriminate].
    assert (Hcall : CreateSSHShell_call (API co) (Config co) (CPNode co)
                      (remoteArgs (Config co) args) false
                    = CreateSSHShell_call api cc n a native).
    { destruct (machine_CreateSSHShell w _ _ _ _); cbn in Hin;
        destruct Hin as [H|[H|[H|H]]]; try discriminate; try exact H.
      - destruct H as [H|[]]. discriminate.
      - contradiction. }
    injection Hcall as <- <- <- <- <-.
    split; [reflexivity|]. split; [reflexivity|].
    exists co. auto.
  - intros c Hin.
    destruct (Run_local_spawned w args c Hmode Hin) as (p & _ & _ & -> & _).
    cbn [inheritStdio exec.Args]. rewrite exec_Command_Args. cbn [tl].
    apply localArgs_suffix.
  - intros api cc n a native Hin.
    rewrite (Run_local w args Hmode) in Hin. cbv zeta in Hin.
    destruct (supportedArch _ _); [|destruct Hin as [H|[]]; discriminate].
    destruct (node_CacheKubectlBinary w _ _) as [p|e];
      [|destruct Hin as [H|[H|[]]]; discriminate].
    cbn [trace fst] in Hin.
    destruct Hin as [H|[H|[H|H]]]; try discriminate.
    apply exitWith_events in H. destruct H as [text H]. discriminate.
Qed.

(** *** What the completion proxy returns *)

Lemma Atoi_range (s : string) (v : Z) :
  strconv.Atoi s = Ok v -> strconv.MinInt <= v <= strconv.MaxInt.
Proof.
  assert (Hcheck : forall x : Z,
            (if (strconv.MinInt <=? x) && (x <=? strconv.MaxInt)
             then Ok x else Err strconv.ErrRange) = Ok v ->
            strconv.MinInt <= v <= strconv.MaxInt).
  { intros x.
    destruct ((strconv.MinInt <=? x) && (x <=? strconv.MaxInt)) eqn:Hx;
      [|discriminate].
    intros [= <-]. apply andb_prop in Hx. destruct Hx as [H1 H2].
    apply Z.leb_le in H1, H2. auto. }
  unfold strconv.Atoi. destruct s as [|c s]; [discriminate|].
  destruct (Ascii.eqb c "-"); [|destruct (Ascii.eqb c "+")].
  - destruct s; [discriminate|].
    destruct (strconv.digits _ 0); [apply Hcheck | discriminate].
  - destruct s; [discriminate|].
    destruct (strconv.digits _ 0); [apply Hcheck | discriminate].
  - destruct (strconv.digits _ 0); [apply Hcheck | discriminate].
Qed.

Lemma HasPrefix_app (p s : string) : strings.HasPrefix (p ++ s) p = true.
Proof.
  induction p as [|c p IH]; cbn; [reflexivity|].
  now rewrite Ascii.eqb_refl, IH.
Qed.

Lemma HasPrefix_refl (p : string) : strings.HasPrefix p p = true.
Proof.
  induction p as [|c p IH]; cbn; [reflexivity|].
  now rewrite Ascii.eqb_refl, IH.
Qed.

Lemma candidate_prefix (line : string) :
  strings.HasPrefix line (candidate line) = true.
Proof.
  destruct (candidate_strips line) as [_ [H|[description H]]];
    rewrite H at 1.
  - apply HasPrefix_refl.
  - apply HasPrefix_app.
Qed.

(** X9. What the proxy returns, read backwards: [nil] only comes with
    the error directive; and a list of candidates means that the
    embedded command succeeded and its output was scanned to the end,
    there is one candidate for every line but the last, each candidate
    is free of tabs and starts its line, and the directive is what the
    last line says, inside the range of an [int]. *)
Theorem ValidArgsFunction_candidates (w : World) (args : list string)
    (toComplete : string) (err : option error) (out : string) :
  kubectl_Execute w (cobra.ShellCompRequestCmd :: args ++ [toComplete])%list
  = (err, out) ->
  (fst (ValidArgsFunction w args toComplete) = None ->
   snd (ValidArgsFunction w args toComplete) = cobra.ShellCompDirectiveError)
  /\ (forall (cands : list string) (directive : Z),
         ValidArgsFunction w args toComplete = (Some cands, directive) ->
         err = None
         /\ bufio.Scanner out = (bufio.lines out, None)
         /\ S (length cands) = length (bufio.lines out)
         /\ Forall2 (fun cand line =>
                       strings.HasPrefix line cand = true
                       /\ bytes_all (fun c => negb (Ascii.eqb c tab)) cand
                          = true)
              cands (removelast (bufio.lines out))
         /\ directiveOf (last (bufio.lines out) EmptyString) = Ok directive
         /\ strconv.MinInt <= directive <= strconv.MaxInt).
Proof.
  intros Hexec.
  rewrite (ValidArgsFunction_cases w args toComplete err out Hexec).
  destruct err as [e|]; [split; [reflexivity | discriminate]|].
  destruct (bufio.Scanner out) as [tokens scanErr] eqn:Hscan. cbn [snd].
  destruct scanErr as [e|]; [split; [reflexivity | discriminate]|].
  pose proof (Scanner_lines out tokens Hscan) as ->.
  destruct (bufio.lines out) as [|l ls] eqn:Hls;
    [split; [reflexivity | discriminate]|].
  cbv zeta.
  destruct (directiveOf (last (l :: ls) EmptyString)) as [d|e] eqn:Hdir;
    [|split; [reflexivity | discriminate]].
  split; [discriminate|].
  intros cands directive [= <- <-].
  split; [reflexivity|]. split; [reflexivity|].
  assert (Hlen : forall xs : list string,
            xs <> [] -> S (length (removelast xs)) = length xs).
  { induction xs as [|x xs IH]; [congruence|]. intros _.
    destruct xs as [|y xs]; [reflexivity|].
    cbn [removelast length] in *. rewrite IH by discriminate. reflexivity. }
  change (match ls with [] => [] | _ :: _ => l :: removelast ls end)
    with (removelast (l :: ls)).
  split; [rewrite length_map; apply (Hlen (l :: ls)); discriminate|].
  split.
  - induction (removelast (l :: ls)) as [|x xs IH]; cbn [map];
      constructor; [|exact IH].
    split; [apply candidate_prefix | apply candidate_strips].
  - split; [reflexivity|]. unfold directiveOf in Hdir.
    apply (Atoi_range _ _ Hdir).
Qed.

Lemma candidate_app_tab (s description : string) :
  bytes_all (fun c => negb (Ascii.eqb c tab)) s = true ->
  candidate (s ++ String tab description) = s.
Proof.
  unfold candidate. induction s as [|c s IH]; intros Hs.
  - cbn [append strings.Split]. now rewrite Ascii.eqb_refl.
  - cbn [bytes_all] in Hs. apply andb_prop in Hs. destruct Hs as [Hc Hs].
    apply negb_true_iff in Hc. cbn [append strings.Split]. rewrite Hc.
    specialize (IH Hs).
    destruct (strings.Split (s ++ String tab description) tab)
      as [|piece pieces]; cbn [hd] in *; now subst.
Qed.

(** The candidate of a line that starts with a byte other than a tab
    starts with that byte. *)
Lemma candidate_cons (c : ascii) (s : string) :
  Ascii.eqb c tab = false ->
  exists rest, candidate (String c s) = String c rest.
Proof.
  intros Hc. unfold candidate. cbn [strings.Split]. rewrite Hc.
  destruct (strings.Split s tab) as [|piece pieces]; cbn [hd]; eauto.
Qed.

(** X10. Two edges of the directive line: what follows a tab on it is
    ignored, as on a candidate line, so a directive with a description is
    still a directive; and only one leading colon is cut, so a line that
    starts with two colons is never a directive. *)
Theorem directiveOf_edges :
  (forall s description : string,
      bytes_all (fun c => negb (Ascii.eqb c tab)) s = true ->
      directiveOf (s ++ String tab description) = directiveOf s)
  /\ (forall s : string,
         directiveOf ("::" ++ s) = Err strconv.ErrSyntax).
Proof.
  split.
  - intros s description Hs. unfold directiveOf.
    now rewrite (candidate_app_tab s description Hs), (candidate_plain s Hs).
  - intros s. unfold directiveOf.
    destruct (candidate_cons ":" (String ":" s) eq_refl) as [rest Hrest].
    change ("::" ++ s) with (String ":" (String ":" s)). rewrite Hrest.
    assert (Hsecond : exists rest', rest = String ":" rest').
    { unfold candidate in Hrest. cbn [strings.Split] in Hrest.
      change (Ascii.eqb ":" tab) with false in Hrest. cbv iota in Hrest.
      destruct (strings.Split s tab) as [|piece pieces];
        cbn [hd] in Hrest; injection Hrest as <-; eauto. }
    destruct Hsecond as [rest' ->]. reflexivity.
Qed.

(** *** The round trip of the completion protocol *)

Lemma append_nil_r (s : string) : s ++ "" = s.
Proof. induction s as [|c s IH]; cbn; [reflexivity | now rewrite IH]. Qed.

Lemma bytes_all_impl (P Q : ascii -> bool) (s : string) :
  (forall c, P c = true -> Q c = true) ->
  bytes_all P s = true -> bytes_all Q s = true.
Proof.
  intros HPQ. induction s as [|c s IH]; cbn; [reflexivity|].
  intros H. apply andb_prop in H. destruct H as [Hc Hs].
  now rewrite (HPQ c Hc), (IH Hs).
Qed.

Lemma bytes_all_app (P : ascii -> bool) (s1 s2 : string) :
  bytes_all P (s1 ++ s2) = bytes_all P s1 && bytes_all P s2.
Proof.
  induction s1 as [|c s1 IH]; cbn; [reflexivity|].
  now rewrite IH, andb_assoc.
Qed.

Lemma plain_byte_inv (c : ascii) :
  plain_byte c = true ->
  Ascii.eqb c tab = false /\ Ascii.eqb c bufio.newline = false
  /\ Ascii.eqb c bufio.carriage_return = false.
Proof.
  unfold plain_byte. intros H.
  apply andb_prop in H. destruct H as [H Hcr].
  apply andb_prop in H. destruct H as [Htab Hnl].
  now rewrite negb_true_iff in *.
Qed.

(** The scanner cuts a text at its first newline. *)
Lemma lines_from_line (line : string) :
  forall (rest : string) (cur : list ascii),
    bytes_all (fun c => negb (Ascii.eqb c bufio.newline)) line = true ->
    bufio.lines_from (line ++ String bufio.newline rest) cur
    = bufio.line_of (path.push line cur) :: bufio.lines_from rest [].
Proof.
  induction line as [|c line IH]; intros rest cur Hline.
  - cbn [append bufio.lines_from path.push].
    now rewrite Ascii.eqb_refl.
  - cbn [bytes_all] in Hline. apply andb_prop in Hline.
    destruct Hline as [Hc Hline]. apply negb_true_iff in Hc.
    cbn [append bufio.lines_from path.push]. rewrite Hc. now apply IH.
Qed.

Lemma dropCR_plain (s : string) :
  bytes_all (fun c => negb (Ascii.eqb c bufio.carriage_return)) s = true ->
  bufio.dropCR s = s.
Proof.
  induction s as [|c s IH]; [reflexivity|]. cbn [bytes_all]. intros H.
  apply andb_prop in H. destruct H as [Hc Hs]. apply negb_true_iff in Hc.
  destruct s as [|c' s]; cbn [bufio.dropCR].
  - now rewrite Hc.
  - f_equal. now apply IH.
Qed.

Lemma dropCR_app (s1 s2 : string) :
  s2 <> "" -> bufio.dropCR (s1 ++ s2) = s1 ++ bufio.dropCR s2.
Proof.
  intros Hs2. induction s1 as [|c s1 IH]; [reflexivity|].
  cbn [append]. destruct (s1 ++ s2) as [|c' s] eqn:Happ.
  - destruct s1; [cbn in Happ; congruence | discriminate].
  - cbn [bufio.dropCR]. rewrite <- IH. reflexivity.
Qed.

(** One scanned line of an output: the text before the end of the line,
    without the carriage return of that end. *)
Lemma lines_end_of_line (crlf : bool) (text rest : string) :
  bytes_all (fun c => negb (Ascii.eqb c bufio.newline)) text = true ->
  bufio.lines (text ++ end_of_line crlf ++ rest)
  = bufio.dropCR (text ++ carriage_return_if crlf) :: bufio.lines rest.
Proof.
  intros Htext. unfold bufio.lines, end_of_line, nl.
  rewrite (append_assoc (carriage_return_if crlf)).
  rewrite <- (append_assoc text). cbn [append].
  rewrite lines_from_line.
  - unfold bufio.line_of. rewrite rev_string_push. cbn [rev_string].
    now rewrite append_nil_r.
  - rewrite bytes_all_app, Htext. now destruct crlf.
Qed.

(** A line that ended with the carriage return of a CRLF, or a line
    without a carriage return, comes out of the scanner as it went
    in. *)
Lemma dropCR_carriage_return_if (crlf : bool) (text : string) :
  bytes_all (fun c => negb (Ascii.eqb c bufio.carriage_return)) text = true ->
  bufio.dropCR (text ++ carriage_return_if crlf) = text.
Proof.
  intros Htext. destruct crlf; cbn [carriage_return_if].
  - rewrite dropCR_app by discriminate. cbn. apply append_nil_r.
  - rewrite append_nil_r. now apply dropCR_plain.
Qed.

Lemma candidate_scanned_item (crlf : bool) (item : string * option string) :
  one_line_item item = true ->
  candidate (bufio.dropCR (completion_line item ++ carriage_return_if crlf))
  = fst item.
Proof.
  unfold one_line_item, completion_line. intros H.
  apply andb_prop in H. destruct H as [Hcand Hdesc].
  assert (Htab : bytes_all (fun c => negb (Ascii.eqb c tab)) (fst item) = true).
  { apply (bytes_all_impl plain_byte); [|exact Hcand].
    intros c Hc. apply plain_byte_inv in Hc.
    destruct Hc as (-> & _). reflexivity. }
  assert (Hcr : bytes_all (fun c => negb (Ascii.eqb c bufio.carriage_return))
                  (fst item) = true).
  { apply (bytes_all_impl plain_byte); [|exact Hcand].
    intros c Hc. apply plain_byte_inv in Hc.
    destruct Hc as (_ & _ & ->). reflexivity. }
  destruct (snd item) as [description|].
  - rewrite append_assoc. rewrite dropCR_app by discriminate.
    cbn [append].
    assert (Hkeep : exists description',
               bufio.dropCR (String tab (description
                                           ++ carriage_return_if crlf))
               = String tab description').
    { destruct (description ++ carriage_return_if crlf) as [|c' s'].
      - exists EmptyString. reflexivity.
      - exists (bufio.dropCR (String c' s')). reflexivity. }
    destruct Hkeep as [description' ->].
    now apply candidate_app_tab.
  - rewrite dropCR_carriage_return_if by exact Hcr.
    now apply candidate_plain.
Qed.

Lemma Itoa_bytes (P : ascii -> bool) (n : Z) :
  P "-"%char = true ->
  (forall d, 0 <= d < 10 -> P (strconv.digit_char d) = true) ->
  bytes_all P (strconv.Itoa n) = true.
Proof.
  intros Hminus Hdigit. unfold strconv.Itoa. destruct (Z.ltb_spec n 0).
  - cbn [bytes_all]. rewrite Hminus, format_loop_all; auto. lia.
  - apply format_loop_all; auto.
Qed.

Lemma Itoa_one_line (n : Z) :
  bytes_all (fun c => negb (Ascii.eqb c bufio.newline)) (strconv.Itoa n) = true
  /\ bytes_all (fun c => negb (Ascii.eqb c bufio.carriage_return))
       (strconv.Itoa n) = true.
Proof.
  split; apply Itoa_bytes; try reflexivity;
    intros d Hd; digit_cases d; reflexivity.
Qed.

Lemma directiveOf_colon_Itoa (n : Z) :
  strconv.MinInt <= n <= strconv.MaxInt ->
  directiveOf (":" ++ strconv.Itoa n) = Ok n.
Proof.
  intros Hn. unfold directiveOf. rewrite candidate_plain.
  - change (strings.TrimPrefix (":" ++ strconv.Itoa n) ":")
      with (strconv.Itoa n).
    now apply Atoi_Itoa.
  - cbn [append bytes_all]. now rewrite Itoa_plain.
Qed.

(** The lines of an output of the protocol. *)
Lemma completion_output_lines (crlf : bool)
    (items : list (string * option string)) (directive : Z) :
  forallb one_line_item items = true ->
  bufio.lines (completion_output crlf items directive)
  = (map (fun item =>
            bufio.dropCR (completion_line item ++ carriage_return_if crlf))
       items
     ++ [(":" ++ strconv.Itoa directive)%string])%list.
Proof.
  destruct (Itoa_one_line directive) as [Hnl Hcr].
  induction items as [|item items IH]; intros Hitems.
  - cbn [completion_output map app].
    rewrite <- (append_nil_r (end_of_line crlf)).
    rewrite <- append_assoc.
    rewrite lines_end_of_line by (cbn [append bytes_all]; now rewrite Hnl).
    rewrite dropCR_carriage_return_if
      by (cbn [append bytes_all]; now rewrite Hcr).
    reflexivity.
  - cbn [forallb] in Hitems. apply andb_prop in Hitems.
    destruct Hitems as [Hitem Hitems].
    cbn [completion_output map app]. rewrite lines_end_of_line.
    + now rewrite (IH Hitems).
    + unfold one_line_item in Hitem. apply andb_prop in Hitem.
      destruct Hitem as [Hcand Hdesc]. unfold completion_line.
      assert (Hcandnl : bytes_all (fun c => negb (Ascii.eqb c bufio.newline))
                          (fst item) = true).
      { apply (bytes_all_impl plain_byte); [|exact Hcand].
        intros c Hc. apply plain_byte_inv in Hc.
        destruct Hc as (_ & -> & _). reflexivity. }
      destruct (snd item) as [description|]; [|exact Hcandnl].
      rewrite bytes_all_app, Hcandnl. cbn [bytes_all andb].
      exact Hdesc.
Qed.

(** X11. The proxy reads back what the completion protocol writes: when
    the embedded command succeeds with the output of the protocol for a
    list of completions and a directive (completions of plain bytes,
    descriptions of one line, a directive in the range of an [int], and
    an output shorter than the buffer of the scanner), the proxy returns
    exactly these completions, in their order and without their
    descriptions, and this directive; and it does so whether the lines
    end with a newline or with a carriage return and a newline. *)
Theorem ValidArgsFunction_round_trip (w : World) (args : list string)
    (toComplete : string) (crlf : bool)
    (items : list (string * option string)) (directive : Z) :
  strconv.MinInt <= directive <= strconv.MaxInt ->
  forallb one_line_item items = true ->
  (N.of_nat (String.length (completion_output crlf items directive))
   < bufio.MaxScanTokenSize)%N ->
  kubectl_Execute w (cobra.ShellCompRequestCmd :: args ++ [toComplete])%list
  = (None, completion_output crlf items directive) ->
  ValidArgsFunction w args toComplete = (Some (map fst items), directive).
Proof.
  intros Hdirective Hitems Hshort Hexec.
  rewrite (ValidArgsFunction_cases w args toComplete None _ Hexec).
  rewrite (Scanner_short _ Hshort). cbn [snd].
  rewrite (completion_output_lines crlf items directive Hitems).
  set (scanned := map _ items).
  destruct (scanned ++ [(":" ++ strconv.Itoa directive)%string])%list
    as [|l ls] eqn:Hls; [destruct scanned; discriminate|].
  cbv zeta. rewrite <- Hls, last_last, removelast_last.
  rewrite (directiveOf_colon_Itoa directive Hdirective).
  subst scanned. rewrite map_map. f_equal. f_equal.
  clear Hls Hshort Hexec. induction items as [|item items IH]; [reflexivity|].
  cbn [forallb] in Hitems. apply andb_prop in Hitems.
  destruct Hitems as [Hitem Hitems]. cbn [map].
  now rewrite (candidate_scanned_item crlf item Hitem), (IH Hitems).
Qed.

(** *** The path of the remote kubectl *)

Lemma rev_string_tail (out : list ascii) :
  forall tail : string,
    rev_string out tail = rev_string out EmptyString ++ tail.
Proof.
  induction out as [|c out IH]; intros tail; cbn [rev_string];
    [reflexivity|].
  rewrite (IH (String c tail)), (IH (String c EmptyString)).
  now rewrite append_assoc.
Qed.

Lemma rev_string_rooted (o : list ascii) :
  forall tail : string,
    rev_string (o ++ [path.slash]) tail
    = String path.slash (rev_string o tail).
Proof.
  induction o as [|c o IH]; intros tail; cbn [app rev_string];
    [reflexivity|].
  now rewrite IH.
Qed.

Lemma rev_string_nonempty (out : list ascii) (tail : string) :
  out <> [] -> rev_string out tail <> "".
Proof.
  revert tail. induction out as [|c out IH]; intros tail Hout; [congruence|].
  cbn [rev_string]. destruct out as [|c' out]; [discriminate|].
  apply IH. discriminate.
Qed.

Lemma Clean_nonempty (p : string) : path.Clean p <> "".
Proof.
  unfold path.Clean. destruct p as [|c p]; [discriminate|].
  destruct (if Ascii.eqb c path.slash then _ else _) as [|c' out];
    [discriminate|].
  apply rev_string_nonempty. discriminate.
Qed.

Lemma backtrack_loop_rooted (out : list ascii) :
  forall dropped : ascii,
    rooted_buffer out -> rooted_buffer (path.backtrack_loop dropped out 1).
Proof.
  induction out as [|c out IH]; intros dropped Hroot; [exact Hroot|].
  cbn [path.backtrack_loop].
  destruct ((1 <? length (c :: out))%nat
            && negb (Ascii.eqb dropped path.slash)) eqn:Hgo; [|exact Hroot].
  apply andb_prop in Hgo. destruct Hgo as [Hlen _].
  apply Nat.ltb_lt in Hlen. apply IH.
  destruct Hroot as [o Ho]. destruct o as [|c0 o].
  - injection Ho as -> ->. cbn in Hlen. lia.
  - injection Ho as -> ->. now exists o.
Qed.

Lemma backtrack_rooted (out : list ascii) :
  rooted_buffer out -> (1 < length out)%nat ->
  rooted_buffer (path.backtrack out 1).
Proof.
  intros [o Ho] Hlen. unfold path.backtrack. destruct out as [|c out];
    [cbn in Hlen; lia|].
  apply backtrack_loop_rooted. destruct o as [|c0 o].
  - injection Ho as -> ->. cbn in Hlen. lia.
  - injection Ho as -> ->. now exists o.
Qed.

(** Copying an element never reads past a slash. *)
Lemma element_app (Y : string) (X : string) :
  forall acc : list ascii,
    exists (acc2 : list ascii) (X2 : string),
      path.element (X ++ String path.slash Y) acc
      = (acc2, X2 ++ String path.slash Y)
      /\ (String.length X2 <= String.length X)%nat
      /\ exists pre, acc2 = (pre ++ acc)%list.
Proof.
  induction X as [|c X IH]; intros acc.
  - exists acc, EmptyString. cbn [append path.element].
    rewrite Ascii.eqb_refl. repeat split; [lia | now exists []].
  - cbn [append path.element].
    destruct (Ascii.eqb_spec c path.slash) as [->|Hc].
    + exists acc, (String path.slash X).
      repeat split; [lia | now exists []].
    + destruct (IH (c :: acc)) as (acc2 & X2 & Helement & Hlen & pre & Hpre).
      exists acc2, X2. rewrite Helement. cbn [String.length].
      repeat split; [lia|]. exists (pre ++ [c])%list.
      now rewrite <- app_assoc.
Qed.

(** The loop of [Clean] on a rooted path comes to every slash of the
    path with a rooted buffer: it never reads an element and the next
    one in one turn. *)
Lemma clean_loop_prefix (Y : string) (n : nat) :
  forall (X : string) (fuel k : nat) (out : list ascii),
    (String.length X <= n)%nat ->
    (String.length X + k <= fuel)%nat ->
    rooted_buffer out ->
    exists (fuel' : nat) (out' : list ascii),
      path.clean_loop fuel true (X ++ String path.slash Y) out 1
      = path.clean_loop fuel' true (String path.slash Y) out' 1
      /\ rooted_buffer out' /\ (k <= fuel')%nat.
Proof.
  induction n as [|n IH]; intros X fuel k out Hn Hfuel Hroot.
  - destruct X; [|cbn in Hn; lia]. exists fuel, out. cbn in *.
    repeat split; [exact Hroot | lia].
  - destruct X as [|c X].
    { exists fuel, out. cbn in *. repeat split; [exact Hroot | lia]. }
    cbn [String.length] in Hn, Hfuel.
    destruct fuel as [|fuel]; [lia|].
    cbn [append path.clean_loop].
    destruct (Ascii.eqb c path.slash) eqn:Hc;
      [apply IH; [lia | lia | exact Hroot]|].
    destruct (Ascii.eqb c path.dot
              && path.at_boundary (X ++ String path.slash Y));
      [apply IH; [lia | lia | exact Hroot]|].
    destruct (Ascii.eqb c path.dot
              && path.HasDotBoundary (X ++ String path.slash Y)) eqn:Hdots.
    + apply andb_prop in Hdots. destruct Hdots as [_ Hdots].
      destruct X as [|c2 X]; [discriminate Hdots|].
      cbn [append strings.drop String.length] in *.
      destruct (1 <? length out)%nat eqn:Hlen.
      * apply IH; [lia | lia |].
        apply backtrack_rooted; [exact Hroot | now apply Nat.ltb_lt].
      * cbn [negb]. apply IH; [lia | lia | exact Hroot].
    + assert (Hstep : forall out1 : list ascii,
                rooted_buffer out1 ->
                exists (fuel' : nat) (out' : list ascii),
                  (let (out2, rest') :=
                     path.element (String c (X ++ String path.slash Y)) out1
                   in path.clean_loop fuel true rest' out2 1)
                  = path.clean_loop fuel' true (String path.slash Y) out' 1
                  /\ rooted_buffer out' /\ (k <= fuel')%nat).
      { intros out1 [o Ho]. cbn [path.element]. rewrite Hc.
        destruct (element_app Y X (c :: out1))
          as (acc2 & X2 & Helement & Hlen & pre & Hpre).
        rewrite Helement. apply IH; [lia | lia |].
        exists (pre ++ c :: o)%list. rewrite Hpre, Ho.
        now rewrite <- app_assoc. }
      match goal with
      | |- context [if ?b then path.slash :: out else out] => destruct b
      end.
      * apply Hstep. destruct Hroot as [o ->]. now exists (path.slash :: o).
      * apply Hstep, Hroot.
Qed.

(** What [Clean] makes of a rooted path that ends with the element
    [kubectl]. *)
Lemma Clean_rooted_kubectl (X : string) :
  (exists r,
      path.Clean (String path.slash (X ++ String path.slash "kubectl"))
      = String path.slash r)
  /\ (exists pre,
         path.Clean (String path.slash (X ++ String path.slash "kubectl"))
         = pre ++ "/kubectl").
Proof.
  unfold path.Clean. change (Ascii.eqb path.slash path.slash) with true.
  cbv iota. cbn [String.length].
  destruct (clean_loop_prefix "kubectl" (String.length X) X
              (S (S (String.length (X ++ String path.slash "kubectl"))))
              2%nat [path.slash])
    as (fuel' & out' & Hloop & Hroot & Hfuel);
    [lia | rewrite length_append; cbn; lia | now exists [] |].
  rewrite Hloop. destruct fuel' as [|[|fuel']]; [lia | lia |].
  change (path.clean_loop (S (S fuel')) true (String path.slash "kubectl")
            out' 1)
    with (path.clean_loop (S fuel') true ("kubectl" ++ "") out' 1).
  rewrite (clean_loop_element fuel' "kubectl" "" out' 1 eq_refl eq_refl).
  assert (Hend : forall out, path.clean_loop fuel' true "" out 1 = out)
    by (intros out; now destruct fuel').
  rewrite Hend.
  set (out1 := if (length out' =? 1)%nat then out' else path.slash :: out').
  assert (Htext : rev_string (path.push "kubectl" out1) ""
                  = rev_string out1 "kubectl")
    by (now rewrite rev_string_push).
  assert (Hout1 : (exists r, rev_string out1 "kubectl" = String path.slash r)
                  /\ exists pre, rev_string out1 "kubectl"
                                 = pre ++ "/kubectl").
  { subst out1. destruct Hroot as [o ->].
    destruct (Nat.eqb_spec (length (o ++ [path.slash])) 1) as [Hone|_].
    - destruct o as [|c o].
      + cbn. split; [now exists "kubectl" | now exists ""].
      + rewrite length_app in Hone. cbn in Hone. lia.
    - cbn [rev_string]. rewrite rev_string_rooted. split; [eauto|].
      exists (String path.slash (rev_string o "")).
      rewrite (rev_string_tail o). reflexivity. }
  destruct (path.push "kubectl" out1) as [|c out] eqn:Hpush.
  - apply (f_equal (@length ascii)) in Hpush. rewrite length_push in Hpush.
    cbn in Hpush. lia.
  - rewrite Htext. exact Hout1.
Qed.

(** X12. The path of the remote kubectl is never empty; and when the
    persistent directory of the guest is an absolute path, then whatever
    the version in the configuration is, the path is absolute and its
    last element is [kubectl]. *)
Theorem kubectlPath_absolute (cfg : ClusterConfig) :
  kubectlPath cfg <> ""
  /\ (forall d : string,
         GuestPersistentDir = String "/" d ->
         (exists r, kubectlPath cfg = String "/" r)
         /\ (exists pre, kubectlPath cfg = pre ++ "/kubectl")).
Proof.
  split.
  - unfold kubectlPath, path.Join. cbn [forallb].
    destruct (String.length GuestPersistentDir =? 0)%nat; cbn [andb];
      apply Clean_nonempty.
  - intros d ->. unfold kubectlPath, path.Join.
    cbn [forallb String.length Nat.eqb andb path.join_loop append].
    apply (Clean_rooted_kubectl
             ((d ++ "/binaries") ++ String path.slash (KubernetesVersion cfg))).
Qed.

(** *** [KubectlCommand] and the cluster *)

(** X13. [KubectlCommand] only asks the locator, once, with the version
    it was given (a version that is not empty is never replaced), and
    neither starts a command nor ends the process: the error of the
    locator comes back as it is, and from its path [p] comes a command
    that is not started, with the arguments [p] and then [args], and with
    no stream attached. *)
Theorem KubectlCommand_contract (w : World) (version binaryURL : string)
    (args : list string) :
  trace (KubectlCommand w version binaryURL args)
  = [CacheKubectlBinary_call (locatorVersion version) binaryURL]
  /\ (version <> "" -> locatorVersion version = version)
  /\ (forall rc : Z, snd (KubectlCommand w version binaryURL args) <> Exit rc)
  /\ (forall e : error,
         node_CacheKubectlBinary w (locatorVersion version) binaryURL = Err e ->
         snd (KubectlCommand w version binaryURL args) = Done (Err e))
  /\ (forall p : string,
         node_CacheKubectlBinary w (locatorVersion version) binaryURL = Ok p ->
         exists c : exec.Cmd,
           snd (KubectlCommand w version binaryURL args) = Done (Ok c)
           /\ exec.Args c = p :: args
           /\ exec.Stdin c = None /\ exec.Stdout c = None
           /\ exec.Stderr c = None).
Proof.
  unfold KubectlCommand. cbn [bind emit trace fst snd].
  change (if String.eqb version "" then DefaultKubernetesVersion else version)
    with (locatorVersion version).
  split; [|split; [|split; [|split]]].
  - destruct (node_CacheKubectlBinary w _ _); reflexivity.
  - intros Hne. unfold locatorVersion.
    now destruct (String.eqb_spec version "").
  - intros rc. destruct (node_CacheKubectlBinary w _ _); discriminate.
  - intros e ->. reflexivity.
  - intros p ->. exists (exec_Command w p args).
    split; [reflexivity|]. split; [apply exec_Command_Args|].
    unfold exec_Command. destruct (String.eqb _ _); [|auto].
    destruct (exec_LookPath w p). auto.
Qed.

(** X14. A local run does not look at the cluster: whether the cluster
    is running or [mustload] would end the process, and whatever the
    remote shell would answer, the run is the same. *)
Theorem Run_local_independent (w : World) (args : list string)
    (cluster : ClusterController + Z) (shell : option error) :
  useSSH w = false ->
  Run GuestPersistentDir (with_mustload_Running w cluster) args
  = Run GuestPersistentDir w args
  /\ Run GuestPersistentDir (with_CreateSSHShell w shell) args
     = Run GuestPersistentDir w args.
Proof.
  intros Hlocal.
  rewrite (Run_local w args Hlocal).
  rewrite (Run_local (with_mustload_Running w cluster) args Hlocal).
  rewrite (Run_local (with_CreateSSHShell w shell) args Hlocal).
  split; reflexivity.
Qed.

(** X15. In either mode a run prints at most one diagnostic of its own,
    and when it prints one it ends with [os.Exit(1)]; a run that returns
    has printed none. *)
Theorem Run_diagnostic_exit (w : World) (args : list string) :
  (count isDiagnostic (trace (Run GuestPersistentDir w args)) <= 1)%nat
  /\ (count isDiagnostic (trace (Run GuestPersistentDir w args)) = 1%nat ->
      snd (Run GuestPersistentDir w args) = Exit 1)
  /\ (snd (Run GuestPersistentDir w args) = Done tt ->
      count isDiagnostic (trace (Run GuestPersistentDir w args)) = 0%nat).
Proof.
  destruct (useSSH w) eqn:Hmode.
  - rewrite (Run_remote w args Hmode). cbv zeta.
    destruct (mustload_Running w _) as [co|rc].
    + destruct (machine_CreateSSHShell w _ _ _ _); cbn;
        repeat split; try lia; try reflexivity; discriminate.
    + cbn. repeat split; try lia; discriminate.
  - rewrite (Run_local w args Hmode). cbv zeta.
    destruct (supportedArch _ _);
      [|cbn; repeat split; try lia; try reflexivity; discriminate].
    destruct (node_CacheKubectlBinary w _ _) as [p|e];
      [|cbn; repeat split; try lia; try reflexivity; discriminate].
    unfold count, trace. cbn [fst snd filter isDiagnostic].
    destruct (Cmd_Run_error w _) as [[status|e]|]; cbn;
      repeat split; try lia; try reflexivity; discriminate.
Qed.

End Properties.

(** * Instances

    The properties at the worlds of the examples. *)

(** [path.Clean], [path.Join] and [filepath.Base] on the rows of their
    tables of tests. *)
Example Clean_examples :
  path.Clean "/var/lib/minikube/binaries/v1.20.0/kubectl"
  = "/var/lib/minikube/binaries/v1.20.0/kubectl"
  /\ path.Clean "a//b/./c/../d/" = "a/b/d"
  /\ path.Clean "/../a/../../b" = "/b"
  /\ path.Clean "../../a/.." = "../.."
  /\ path.Clean "abc/def/../../.." = ".."
  /\ path.Clean "/" = "/" /\ path.Clean "./" = "."
  /\ path.Join [""; ""] = "" /\ path.Join ["a"; ""] = "a"
  /\ path.Join ["a/b"; "../c"] = "a/c"
  /\ filepath.Base "/usr/bin/kubectl" = "kubectl"
  /\ filepath.Base "kubectl" = "kubectl" /\ filepath.Base "a/b//" = "b"
  /\ filepath.Base "//" = "/" /\ filepath.Base "" = ".".
Proof. repeat split; reflexivity. Qed.

(** The join drops an empty version instead of leaving two slashes. *)
Example kubectlPath_empty_version :
  kubectlPath exampleGuestDir
    {| Name := "c1"; KubernetesVersion := ""; BinaryMirror := "" |}
  = "/var/lib/minikube/binaries/kubectl".
Proof. reflexivity. Qed.

Example Atoi_examples :
  strconv.Atoi "4" = Ok 4 /\ strconv.Atoi "+12" = Ok 12
  /\ strconv.Atoi "-9223372036854775808" = Ok (-9223372036854775808)
  /\ strconv.Atoi "9223372036854775808" = Err strconv.ErrRange
  /\ strconv.Atoi "" = Err strconv.ErrSyntax
  /\ strconv.Atoi "-" = Err strconv.ErrSyntax
  /\ strconv.Atoi "1_0" = Err strconv.ErrSyntax
  /\ strconv.Atoi ":4" = Err strconv.ErrSyntax
  /\ strconv.Itoa (-120) = "-120" /\ strconv.Itoa 0 = "0".
Proof. repeat split; reflexivity. Qed.

Example Scanner_examples :
  bufio.Scanner "" = ([], None)
  /\ bufio.Scanner nl = ([""], None)
  /\ bufio.Scanner ("a" ++ nl ++ nl ++ "b" ++ String bufio.carriage_return nl
                      ++ "c")
     = (["a"; ""; "b"; "c"], None).
Proof. repeat split; reflexivity. Qed.

(** A local run and a remote run of [kubectl get pods]. *)
Example Run_example_local :
  exampleRun exampleWorld ["get"; "pods"]
  = ([CacheKubectlBinary_call "v1.19.4" "https://mirror.example";
      klog_Infof "Running /cache/v1.19.4/kubectl [--cluster c1 get pods]";
      Cmd_Run_call exampleChild], Exit 42).
Proof. reflexivity. Qed.

Example Run_example_ssh :
  exampleRun sshWorld ["get"; "pods"]
  = ([mustload_Running_call "c1";
      klog_Infof
        ("Running SSH [sudo /var/lib/minikube/binaries/v1.19.4/kubectl "
           ++ "--kubeconfig /etc/kubernetes/admin.conf get pods]");
      CreateSSHShell_call "machines" exampleConfig (CPNode exampleController)
        ["sudo"; "/var/lib/minikube/binaries/v1.19.4/kubectl";
         "--kubeconfig"; "/etc/kubernetes/admin.conf"; "get"; "pods"] false],
     Done tt).
Proof. reflexivity. Qed.

(** A child that a signal killed has an [*exec.ExitError] whose
    [ExitStatus()] is -1, and that is what [os.Exit] gets. *)
Example Run_example_signalled :
  snd (exampleRun (with_child exampleWorld (exec.Waited 9)) ["get"; "pods"])
  = Exit (-1).
Proof. reflexivity. Qed.

(** A completion with descriptions, and outputs that are protocol
    errors. *)
Example ValidArgsFunction_examples :
  ValidArgsFunction exampleWorld ["get"] "po" = (Some ["pod-a"; "pod-b"], 4)
  /\ ValidArgsFunction (with_kubectl_Execute exampleWorld (None, ""))
       ["get"] "po" = (None, 1)
  /\ ValidArgsFunction
       (with_kubectl_Execute exampleWorld (None, "pod-a" ++ nl ++ "pod-b"))
       ["get"] "po" = (None, 1)
  /\ ValidArgsFunction
       (with_kubectl_Execute exampleWorld (Some "unknown command", ":4" ++ nl))
       ["get"] "po" = (None, 1)
  /\ ValidArgsFunction
       (with_kubectl_Execute exampleWorld
          (None, "pod-a" ++ nl ++ "4" ++ String tab "ignored" ++ nl))
       ["get"] "po" = (Some ["pod-a"], 4).
Proof. repeat split; reflexivity. Qed.

Lemma localArgs_cluster_scoping_witness :
  localArgs "c1" ["version"] = ["version"]
  /\ localArgs "c1" ["--help"; "get"] = ["--help"; "get"]
  /\ localArgs "c1" ["__complete"; "get"; ""] = ["__complete"; "get"; ""]
  /\ localArgs "c1" ["get"; "pods"] = ["--cluster"; "c1"; "get"; "pods"]
  /\ tl (exec.Args exampleChild) = localArgs "c1" ["get"; "pods"].
Proof.
  pose proof (localArgs_cluster_scoping exampleDefaultVersion
                exampleArchitectures exampleGuestDir) as H.
  split; [|split; [|split; [|split]]].
  - apply (H "c1" ["version"]). left. simpl. lia.
  - apply (H "c1" ["--help"; "get"]). right. left. reflexivity.
  - apply (H "c1" ["__complete"; "get"; ""]). right. right. reflexivity.
  - apply (H "c1" ["get"; "pods"]); [simpl; lia | discriminate | discriminate].
  - apply (H "c1" ["get"; "pods"]) with (w := exampleWorld);
      [reflexivity | reflexivity |].
    right. right. left. reflexivity.
Defined.

Lemma remoteArgs_shape_witness :
  remoteArgs exampleGuestDir exampleConfig ["get"; "pods"]
  = ["sudo"; "/var/lib/minikube/binaries/v1.19.4/kubectl"; "--kubeconfig";
     "/etc/kubernetes/admin.conf"; "get"; "pods"]
  /\ In (CreateSSHShell_call "machines" exampleConfig
           (CPNode exampleController)
           ["sudo"; "/var/lib/minikube/binaries/v1.19.4/kubectl";
            "--kubeconfig"; "/etc/kubernetes/admin.conf"; "get"; "pods"]
           false)
        (trace (exampleRun sshWorld ["get"; "pods"]))
  /\ remoteArgs exampleGuestDir exampleConfig ["get"; "pods"]
     = (["sudo";
         (exampleGuestDir ++ "/binaries/" ++ KubernetesVersion exampleConfig
            ++ "/kubectl")%string;
         "--kubeconfig"; "/etc/kubernetes/admin.conf"]
          ++ ["get"; "pods"])%list.
Proof.
  destruct (remoteArgs_shape exampleDefaultVersion exampleArchitectures
              exampleGuestDir exampleConfig ["get"; "pods"])
    as (_ & Hrun & Hpath & Hliteral).
  split; [|split].
  - apply Hpath. reflexivity.
  - apply (Hrun sshWorld exampleController); reflexivity.
  - apply (Hliteral ["var"; "lib"; "minikube"]);
      [discriminate | reflexivity | reflexivity | reflexivity].
Defined.


Lemma Run_architecture_check_witness :
  In "amd64" exampleArchitectures
  /\ ~ In (Fprintf_Stderr ("Not supported on: amd64" ++ nl))
          (trace (exampleRun exampleWorld ["get"; "pods"]))
  /\ ~ In "riscv64" exampleArchitectures
  /\ exampleRun riscvWorld ["get"; "pods"]
     = ([Fprintf_Stderr ("Not supported on: riscv64" ++ nl)], Exit 1).
Proof.
  destruct (Run_architecture_check exampleDefaultVersion exampleArchitectures
              exampleGuestDir exampleWorld ["get"; "pods"] eq_refl)
    as [Hok _].
  destruct (Run_architecture_check exampleDefaultVersion exampleArchitectures
              exampleGuestDir riscvWorld ["get"; "pods"] eq_refl)
    as [_ Hbad].
  assert (Hamd : In "amd64" exampleArchitectures) by (left; reflexivity).
  assert (Hriscv : ~ In "riscv64" exampleArchitectures).
  { intros H. repeat (destruct H as [H|H]; [discriminate|]). exact H. }
  destruct (Hok Hamd) as [_ Hquiet].
  destruct (Hbad Hriscv) as (Hrun & _).
  split; [exact Hamd|]. split; [exact Hquiet|].
  split; [exact Hriscv | exact Hrun].
Defined.

Lemma Run_config_fallback_witness :
  exampleRun noConfigWorld ["get"; "pods"]
  = exampleRun
      (with_config_Load noConfigWorld
         (Ok {| Name := "c1"; KubernetesVersion := exampleDefaultVersion;
                BinaryMirror := "" |})) ["get"; "pods"]
  /\ hd_error (trace (exampleRun noConfigWorld ["get"; "pods"]))
     = Some (CacheKubectlBinary_call "v1.20.0" "")
  /\ hd_error (trace (exampleRun exampleWorld ["get"; "pods"]))
     = Some (CacheKubectlBinary_call "v1.19.4" "https://mirror.example").
Proof.
  destruct (Run_config_fallback exampleDefaultVersion exampleArchitectures
              exampleGuestDir noConfigWorld ["get"; "pods"]) as [Hfail _].
  destruct (Run_config_fallback exampleDefaultVersion exampleArchitectures
              exampleGuestDir exampleWorld ["get"; "pods"]) as [_ Hload].
  destruct (Hfail "open config.json: no such file" eq_refl) as [_ Hrun].
  destruct (Hload exampleConfig eq_refl) as [_ Hfirst].
  split; [apply Hrun|]. split; [reflexivity|].
  apply Hfirst; [reflexivity | left; reflexivity].
Defined.

Lemma KubectlCommand_empty_version_witness :
  KubectlCommand exampleDefaultVersion exampleWorld "" "" ["version"]
  = KubectlCommand exampleDefaultVersion exampleWorld "v1.20.0" ""
      ["version"]
  /\ exec.Path (exec_Command exampleWorld "/cache/v1.20.0/kubectl" ["version"])
     = "/cache/v1.20.0/kubectl"
  /\ exec.Args (exec_Command exampleWorld "/cache/v1.20.0/kubectl" ["version"])
     = ["/cache/v1.20.0/kubectl"; "version"].
Proof.
  destruct (KubectlCommand_empty_version exampleDefaultVersion exampleWorld
              "" ["version"]) as (Hsame & _ & _ & Hcmd).
  destruct (Hcmd "/cache/v1.20.0/kubectl" eq_refl) as (_ & Hargs & Hpath).
  split; [exact Hsame|]. split; [|exact Hargs].
  apply Hpath. discriminate.
Defined.

Lemma Run_binary_unavailable_witness :
  exampleRun offlineWorld ["get"; "pods"]
  = ([CacheKubectlBinary_call "v1.19.4" "https://mirror.example";
      out_ErrLn "Error caching kubectl: %v" "download failed"], Exit 1)
  /\ exit_status (exampleRun offlineWorld ["get"; "pods"]) = 1.
Proof.
  destruct (Run_binary_unavailable exampleDefaultVersion exampleArchitectures
              exampleGuestDir offlineWorld ["get"; "pods"]
              "v1.19.4" "https://mirror.example" "download failed" eq_refl)
    as (Hrun & Hexit & _).
  - left. reflexivity.
  - reflexivity.
  - split; assumption.
Defined.

Lemma strings_eqb_eq (l1 l2 : list string) :
  strings_eqb l1 l2 = true -> l1 = l2.
Proof.
  revert l2. induction l1 as [|s1 l1 IH]; intros [|s2 l2]; cbn;
    try discriminate; [reflexivity|].
  intros H. apply andb_prop in H. destruct H as [Hs Hl].
  apply String.eqb_eq in Hs. subst s2. f_equal. now apply IH.
Qed.

(** The output with the long line: what the embedded command answers,
    its three lines, and where the scanner stops. *)
Lemma longLineWorld_answer (args : list string) :
  kubectl_Execute longLineWorld args = (None, longLineOutput).
Proof. reflexivity. Qed.

Lemma longLineOutput_lines :
  bufio.lines longLineOutput = ["pod-a"; longLine; ":4"].
Proof. apply strings_eqb_eq. vm_compute. reflexivity. Qed.

Lemma longLineOutput_scan :
  snd (bufio.Scanner longLineOutput) = Some bufio.ErrTooLong.
Proof. vm_compute. reflexivity. Qed.

Lemma ValidArgsFunction_completion_witness :
  ValidArgsFunction exampleWorld ["get"; "pods"] "po"
  = (Some ["pod-a"; "pod-b"], 4)
  /\ ValidArgsFunction longLineWorld ["get"; "pods"] "po"
     = (None, cobra.ShellCompDirectiveError).
Proof.
  destruct (ValidArgsFunction_completion exampleWorld ["get"; "pods"] "po"
              None
              ("pod-a" ++ String tab "first pod" ++ nl
                 ++ "pod-b" ++ nl ++ ":4" ++ nl) eq_refl)
    as (_ & Hok & _).
  destruct (ValidArgsFunction_completion longLineWorld ["get"; "pods"] "po"
              None longLineOutput (longLineWorld_answer _))
    as (Herr & _).
  split.
  - apply (Hok 4); [reflexivity | reflexivity | discriminate | reflexivity].
  - apply Herr. right. left. rewrite longLineOutput_scan. discriminate.
Defined.

Lemma ValidArgsFunction_directive_only_witness :
  ValidArgsFunction directiveOnlyWorld ["get"] "" = (Some [], 4)
  /\ ValidArgsFunction directiveOnlyWorld ["get"] ""
     <> (None, cobra.ShellCompDirectiveError).
Proof.
  destruct (ValidArgsFunction_directive_only directiveOnlyWorld ["get"] ""
              (":4" ++ nl) ":4" 4 eq_refl eq_refl eq_refl)
    as (Hreturn & Hnoerror & _).
  split; assumption.
Defined.

Lemma directive_colon_optional_witness :
  directiveOf ":4" = Ok 4 /\ directiveOf "4" = Ok 4
  /\ directiveOf ":-1" = Ok (-1) /\ directiveOf "-1" = Ok (-1).
Proof.
  assert (H4 : strconv.MinInt <= 4 <= strconv.MaxInt)
    by (split; discriminate).
  assert (H1 : strconv.MinInt <= -1 <= strconv.MaxInt)
    by (split; discriminate).
  destruct (directive_colon_optional 4 H4) as (Ha & Hb & _).
  destruct (directive_colon_optional (-1) H1) as (Hc & Hd & _).
  repeat split; assumption.
Defined.

(** C4, as the specification words it, fails on an output with a line
    that the scanner cannot hold: the embedded command succeeds, the
    output has three lines and its last line is the directive 4, so the
    specification asks for the two candidates and the directive 4; the
    proxy returns [nil] and the error directive. *)
Lemma completion_by_lines_counterexample :
  kubectl_Execute longLineWorld
    (cobra.ShellCompRequestCmd :: ["get"; "pods"] ++ ["po"])%list
  = (None, longLineOutput)
  /\ bufio.lines longLineOutput = ["pod-a"; longLine; ":4"]
  /\ directiveOf ":4" = Ok 4
  /\ completion_by_lines longLineWorld ["get"; "pods"] "po"
     = (Some ["pod-a"; longLine], 4)
  /\ ValidArgsFunction longLineWorld ["get"; "pods"] "po"
     = (None, cobra.ShellCompDirectiveError)
  /\ ValidArgsFunction longLineWorld ["get"; "pods"] "po"
     <> completion_by_lines longLineWorld ["get"; "pods"] "po".
Proof.
  assert (Hcandidate : candidate longLine = longLine)
    by (apply String.eqb_eq; vm_compute; reflexivity).
  assert (Hspec : completion_by_lines longLineWorld ["get"; "pods"] "po"
                  = (Some ["pod-a"; longLine], 4)).
  { unfold completion_by_lines. rewrite longLineWorld_answer.
    rewrite longLineOutput_lines. cbn [last removelast map].
    rewrite Hcandidate. reflexivity. }
  assert (Hcode : ValidArgsFunction longLineWorld ["get"; "pods"] "po"
                  = (None, cobra.ShellCompDirectiveError))
    by (vm_compute; reflexivity).
  split; [apply longLineWorld_answer|].
  split; [apply longLineOutput_lines|].
  split; [reflexivity|].
  split; [exact Hspec|]. split; [exact Hcode|].
  rewrite Hspec, Hcode. discriminate.
Qed.

(** * More instances *)

Lemma Run_remote_outcome_witness :
  snd (exampleRun sshWorld ["get"; "pods"]) = Done tt
  /\ snd (exampleRun sshFailWorld ["get"; "pods"]) = Exit 1
  /\ last (trace (exampleRun sshFailWorld ["get"; "pods"])) (klog_Infof "")
     = Fprintf_Stderr "Error running kubectl: Process exited with status 3"
  /\ exampleRun stoppedWorld ["get"; "pods"]
     = ([mustload_Running_call "c1"], Exit 85).
Proof.
  destruct (Run_remote_outcome exampleDefaultVersion exampleArchitectures
              exampleGuestDir sshWorld ["get"; "pods"] eq_refl) as [Hok _].
  destruct (Run_remote_outcome exampleDefaultVersion exampleArchitectures
              exampleGuestDir sshFailWorld ["get"; "pods"] eq_refl)
    as [Hfail _].
  destruct (Run_remote_outcome exampleDefaultVersion exampleArchitectures
              exampleGuestDir stoppedWorld ["get"; "pods"] eq_refl)
    as [_ Hstopped].
  destruct (Hok exampleController eq_refl) as (_ & Hreturn & _).
  destruct (Hfail exampleController eq_refl) as (_ & _ & _ & Herror).
  destruct (Herror "Process exited with status 3" eq_refl) as [Hexit Hlast].
  split; [apply Hreturn; reflexivity|].
  split; [exact Hexit|]. split; [exact Hlast|].
  apply (Hstopped 85). reflexivity.
Defined.

Lemma Run_mode_separation_witness :
  count isLocalEvent (trace (exampleRun sshWorld ["get"; "pods"])) = 0%nat
  /\ count isRemoteEvent (trace (exampleRun exampleWorld ["get"; "pods"]))
     = 0%nat.
Proof.
  destruct (Run_mode_separation exampleDefaultVersion exampleArchitectures
              exampleGuestDir sshWorld ["get"; "pods"]) as [Hremote _].
  destruct (Run_mode_separation exampleDefaultVersion exampleArchitectures
              exampleGuestDir exampleWorld ["get"; "pods"]) as [_ Hlocal].
  split; [apply Hremote | apply Hlocal]; reflexivity.
Defined.

Lemma Run_remote_independent_witness :
  exampleRun (with_config_Load sshWorld (Err "no config")) ["get"; "pods"]
  = exampleRun sshWorld ["get"; "pods"]
  /\ exampleRun (with_RuntimeArch sshWorld "riscv64") ["get"; "pods"]
     = exampleRun sshWorld ["get"; "pods"].
Proof.
  destruct (Run_remote_independent exampleDefaultVersion exampleArchitectures
              exampleGuestDir sshWorld ["get"; "pods"] (Err "no config")
              "riscv64" (fun _ _ => Err "download failed")
              (exec.NotWaited "fork/exec: permission denied") eq_refl)
    as (Hload & Harch & _).
  split; assumption.
Defined.

Lemma Run_local_child_witness :
  exec.Stdin exampleChild = Some os.Stdin
  /\ exec.Args exampleChild
     = "/cache/v1.19.4/kubectl" :: localArgs "c1" ["get"; "pods"].
Proof.
  destruct (Run_local_child exampleDefaultVersion exampleArchitectures
              exampleGuestDir exampleWorld ["get"; "pods"] exampleChild eq_refl)
    as (Hstdin & _ & _ & _ & _ & p & Hp & Hargs).
  - right. right. left. reflexivity.
  - split; [exact Hstdin | reflexivity].
Defined.

Lemma Run_waited_child_witness :
  exit_status (exampleRun killedWorld ["get"; "pods"]) = -1
  /\ snd (exampleRun killedWorld ["get"; "pods"]) = Exit (-1)
  /\ count isDiagnostic (trace (exampleRun killedWorld ["get"; "pods"]))
     = 0%nat.
Proof.
  destruct (Run_waited_child exampleDefaultVersion exampleArchitectures
              exampleGuestDir killedWorld ["get"; "pods"] exampleChild 9
              eq_refl)
    as (Hstatus & _ & Hquiet & Hkilled).
  - right. right. left. reflexivity.
  - reflexivity.
  - reflexivity.
  - split; [exact Hstatus|]. split; [apply Hkilled; reflexivity|].
    exact Hquiet.
Defined.

Lemma Run_local_exit_nonzero_witness :
  snd (exampleRun exampleWorld ["get"; "pods"]) <> Exit 0
  /\ snd (exampleRun riscvWorld ["get"; "pods"]) <> Exit 0.
Proof.
  split.
  - apply (Run_local_exit_nonzero exampleDefaultVersion exampleArchitectures
             exampleGuestDir exampleWorld ["get"; "pods"] eq_refl).
  - apply (Run_local_exit_nonzero exampleDefaultVersion exampleArchitectures
             exampleGuestDir riscvWorld ["get"; "pods"] eq_refl).
Defined.

Lemma Run_arguments_passed_on_witness :
  (exists pre, tl (exec.Args exampleChild) = (pre ++ ["get"; "pods"])%list)
  /\ (exists pre, ["sudo"; "/var/lib/minikube/binaries/v1.19.4/kubectl";
                   "--kubeconfig"; "/etc/kubernetes/admin.conf"; "get"; "pods"]
                  = (pre ++ ["get"; "pods"])%list).
Proof.
  destruct (Run_arguments_passed_on exampleDefaultVersion exampleArchitectures
              exampleGuestDir exampleWorld ["get"; "pods"]) as [Hlocal _].
  destruct (Run_arguments_passed_on exampleDefaultVersion exampleArchitectures
              exampleGuestDir sshWorld ["get"; "pods"]) as [_ Hremote].
  split.
  - destruct (Hlocal exampleChild) as (pre & Hpre & _);
      [right; right; left; reflexivity|].
    now exists pre.
  - destruct (Hremote "machines" exampleConfig (CPNode exampleController)
                ["sudo"; "/var/lib/minikube/binaries/v1.19.4/kubectl";
                 "--kubeconfig"; "/etc/kubernetes/admin.conf"; "get"; "pods"]
                false) as (_ & Hargs & _);
      [right; right; left; reflexivity|].
    eexists. exact Hargs.
Defined.

Lemma ValidArgsFunction_candidates_witness :
  S (length ["pod-a"; "pod-b"])
  = length (bufio.lines ("pod-a" ++ String tab "first pod" ++ nl
                           ++ "pod-b" ++ nl ++ ":4" ++ nl))
  /\ strconv.MinInt <= 4 <= strconv.MaxInt.
Proof.
  destruct (ValidArgsFunction_candidates exampleWorld ["get"; "pods"] "po"
              None
              ("pod-a" ++ String tab "first pod" ++ nl
                 ++ "pod-b" ++ nl ++ ":4" ++ nl) eq_refl)
    as [_ Hcands].
  destruct (Hcands ["pod-a"; "pod-b"] 4 eq_refl)
    as (_ & _ & Hcount & _ & _ & Hrange).
  split; assumption.
Defined.

Lemma directiveOf_edges_witness :
  directiveOf (":4" ++ String tab "no file completion") = Ok 4
  /\ directiveOf "::4" = Err strconv.ErrSyntax.
Proof.
  destruct directiveOf_edges as [Hdescription Hcolons].
  split.
  - rewrite (Hdescription ":4" "no file completion" eq_refl). reflexivity.
  - apply (Hcolons "4").
Defined.

Lemma ValidArgsFunction_round_trip_witness :
  ValidArgsFunction (protocolWorld false) ["get"; "pods"] "po"
  = (Some ["pod-a"; "pod-b"; "pod-c"], 4)
  /\ ValidArgsFunction (protocolWorld true) ["get"; "pods"] "po"
     = (Some ["pod-a"; "pod-b"; "pod-c"], 4).
Proof.
  assert (Hrange : strconv.MinInt <= 4 <= strconv.MaxInt)
    by (split; discriminate).
  split.
  - apply (ValidArgsFunction_round_trip (protocolWorld false) ["get"; "pods"]
             "po" false exampleItems 4 Hrange); reflexivity.
  - apply (ValidArgsFunction_round_trip (protocolWorld true) ["get"; "pods"]
             "po" true exampleItems 4 Hrange); reflexivity.
Defined.

Lemma kubectlPath_absolute_witness :
  (exists r, kubectlPath exampleGuestDir exampleConfig = String "/" r)
  /\ (exists pre, kubectlPath exampleGuestDir exampleConfig
                  = pre ++ "/kubectl").
Proof.
  destruct (kubectlPath_absolute exampleGuestDir exampleConfig) as [_ Habs].
  apply (Habs "var/lib/minikube"). reflexivity.
Defined.

Lemma KubectlCommand_contract_witness :
  trace (KubectlCommand exampleDefaultVersion exampleWorld "v1.18.0" ""
           ["version"])
  = [CacheKubectlBinary_call "v1.18.0" ""]
  /\ snd (KubectlCommand exampleDefaultVersion offlineWorld "v1.18.0" ""
            ["version"])
     = Done (Err "download failed").
Proof.
  destruct (KubectlCommand_contract exampleDefaultVersion exampleWorld
              "v1.18.0" "" ["version"]) as (Htrace & Hversion & _).
  destruct (KubectlCommand_contract exampleDefaultVersion offlineWorld
              "v1.18.0" "" ["version"]) as (_ & _ & _ & Herr & _).
  split.
  - rewrite Htrace, Hversion; [reflexivity | discriminate].
  - apply Herr. reflexivity.
Defined.

Lemma Run_local_independent_witness :
  exampleRun (with_mustload_Running exampleWorld (inr 85)) ["get"; "pods"]
  = exampleRun exampleWorld ["get"; "pods"].
Proof.
  apply (Run_local_independent exampleDefaultVersion exampleArchitectures
           exampleGuestDir exampleWorld ["get"; "pods"] (inr 85)
           (Some "Process exited with status 3") eq_refl).
Defined.

Lemma Run_diagnostic_exit_witness :
  count isDiagnostic (trace (exampleRun offlineWorld ["get"; "pods"])) = 1%nat
  /\ snd (exampleRun offlineWorld ["get"; "pods"]) = Exit 1
  /\ snd (exampleRun sshWorld ["get"; "pods"]) = Done tt
  /\ count isDiagnostic (trace (exampleRun sshWorld ["get"; "pods"])) = 0%nat.
Proof.
  destruct (Run_diagnostic_exit exampleDefaultVersion exampleArchitectures
              exampleGuestDir offlineWorld ["get"; "pods"]) as (_ & Hexit & _).
  destruct (Run_diagnostic_exit exampleDefaultVersion exampleArchitectures
              exampleGuestDir sshWorld ["get"; "pods"]) as (_ & _ & Hquiet).
  split; [reflexivity|]. split; [apply Hexit; reflexivity|].
  split; [reflexivity|]. apply Hquiet. reflexivity.
Defined.
